(** * A caching reverse proxy: cache keys, response interception, serving

    Shallow embedding of [main.go]: the cache-key function
    [generateCacheKey], the two hooks installed on the reverse proxy
    ([Director] and [ModifyResponse]) and the request handler returned by
    [createProxyHandler].

    The Go standard library is not part of the program.  The few library
    operations the program calls ([http.Header]'s [Add]/[Set]/[Del],
    [url.URL.Query], [sort.Strings], [strings.Join], [io.ReadAll] and the
    driver [httputil.ReverseProxy.ServeHTTP]) are given small executable
    stand-ins following their documented behaviour. *)

From Stdlib Require Import ZArith Ascii String List Decimal DecimalString.
From stdpp Require Import base gmap strings list sorting fin_maps.

Local Open Scope Z_scope.

(** ** Strings and byte slices *)

(** [[]byte]. *)
Abbreviation bytes := (list Byte.byte).

(** [fmt.Sprintf("%d", n)] for a length [n]. *)
Definition Sprintf_d (n : nat) : string :=
  NilEmpty.string_of_uint (Nat.to_uint n).

(** [strings.Join(elems, sep)]. *)
Fixpoint strings_Join (elems : list string) (sep : string) : string :=
  match elems with
  | [] => EmptyString
  | [e] => e
  | e :: rest => e +:+ sep +:+ strings_Join rest sep
  end.

(** [sort.Strings]: ascending byte-wise lexicographic order. *)
Definition sort_Strings (l : list string) : list string :=
  merge_sort String.le l.

(** The character [c] occurs in [s]. *)
Fixpoint occurs (c : ascii) (s : string) : bool :=
  match s with
  | EmptyString => false
  | String a s' => Ascii.eqb a c || occurs c s'
  end.

(** ** [net/textproto]: canonical header keys *)

Module textproto.

Definition isLower (c : ascii) : bool :=
  (97 <=? nat_of_ascii c)%nat && (nat_of_ascii c <=? 122)%nat.

Definition isUpper (c : ascii) : bool :=
  (65 <=? nat_of_ascii c)%nat && (nat_of_ascii c <=? 90)%nat.

Definition isDigit (c : ascii) : bool :=
  (48 <=? nat_of_ascii c)%nat && (nat_of_ascii c <=? 57)%nat.

(** Bytes allowed in a header field name (an RFC 7230 token). *)
Definition validHeaderFieldByte (c : ascii) : bool :=
  isLower c || isUpper c || isDigit c || occurs c "!#$%&'*+-.^_`|~".

Definition toUpper (c : ascii) : ascii := ascii_of_nat (nat_of_ascii c - 32).
Definition toLower (c : ascii) : ascii := ascii_of_nat (nat_of_ascii c + 32).

(** Upper-case the first letter and every letter after a dash,
    lower-case the others. *)
Fixpoint canonicalize (upper : bool) (s : string) : string :=
  match s with
  | EmptyString => EmptyString
  | String c s' =>
      let c' := if upper && isLower c then toUpper c
                else if negb upper && isUpper c then toLower c
                else c in
      String c' (canonicalize (Ascii.eqb c' "-") s')
  end.

Fixpoint allValid (s : string) : bool :=
  match s with
  | EmptyString => true
  | String c s' => validHeaderFieldByte c && allValid s'
  end.

(** [textproto.CanonicalMIMEHeaderKey]: a key holding a byte that is
    not a token byte is returned unchanged. *)
Definition CanonicalMIMEHeaderKey (s : string) : string :=
  if allValid s then canonicalize true s else s.

End textproto.

(** ** [net/url] *)

Module url.

(** [url.Values], [map[string][]string]. *)
Abbreviation Values := (gmap string (list string)).

(** The fields of [url.URL] the program touches.  [RawQuery] is kept in
    parsed form: the decoded [name=value] pairs of the query string, in
    the order in which they appear in it. *)
Record URL := {
  Scheme : string;
  Host : string;
  Path : string;
  RawQuery : list (string * string)
}.

(** [m[key] = append(m[key], value)]. *)
Definition appendValue (m : Values) (kv : string * string) : Values :=
  <[kv.1 := m !!! kv.1 ++ [kv.2]]> m.

(** [url.ParseQuery]: each pair appends its value to the slice stored
    under its name. *)
Definition ParseQuery (q : list (string * string)) : Values :=
  foldl appendValue ∅ q.

(** [URL.Query]. *)
Definition Query (u : URL) : Values := ParseQuery (RawQuery u).

End url.

(** ** [net/http]: headers, requests, responses, the response writer *)

Module http.

(** [http.Header], [map[string][]string]. *)
Abbreviation Header := (gmap string (list string)).

Definition CanonicalHeaderKey := textproto.CanonicalMIMEHeaderKey.

(** [h.Add(key, value)]. *)
Definition Add (h : Header) (key value : string) : Header :=
  let key := CanonicalHeaderKey key in
  <[key := h !!! key ++ [value]]> h.

(** [h.Set(key, value)]. *)
Definition Set_ (h : Header) (key value : string) : Header :=
  <[CanonicalHeaderKey key := [value]]> h.

(** [h.Del(key)]. *)
Definition Del (h : Header) (key : string) : Header :=
  delete (CanonicalHeaderKey key) h.

(** [h.Values(key)]. *)
Definition Values (h : Header) (key : string) : list string :=
  h !!! CanonicalHeaderKey key.

(** [h.Get(key)]: the first value, or the empty string. *)
Definition Get (h : Header) (key : string) : string :=
  match Values h key with
  | [] => EmptyString
  | v :: _ => v
  end.

Definition MethodGet : string := "GET".
Definition StatusBadGateway : Z := 502.

(** [*http.Request]: [r.Method], [r.URL], [r.Host] and [r.Header]. *)
Record Request := {
  Method : string;
  URL : url.URL;
  Host : string;
  Header_ : Header
}.

(** A response body stream: the bytes it yields and, when reading
    breaks off, the error that ends it. *)
Record ReadCloser := {
  data : bytes;
  failure : option string
}.

(** [*http.Response]: [resp.StatusCode], [resp.Header], [resp.Body] and
    [resp.Request], the request that was sent to obtain the response. *)
Record Response := {
  StatusCode : Z;
  RespHeader : Header;
  Body : ReadCloser;
  Request_ : Request
}.

(** [http.ResponseWriter].  [sent] is filled by the first [WriteHeader]
    with the status code and a snapshot of the header map: later changes
    of the map no longer reach the client. *)
Record ResponseWriter := {
  wHeader : Header;
  sent : option (Z * Header);
  wBody : bytes
}.

Definition newResponseWriter : ResponseWriter :=
  {| wHeader := ∅; sent := None; wBody := [] |}.

(** A change of [w.Header()]. *)
Definition onHeader (f : Header -> Header) (w : ResponseWriter) : ResponseWriter :=
  {| wHeader := f (wHeader w); sent := sent w; wBody := wBody w |}.

(** [w.WriteHeader(code)]. *)
Definition WriteHeader (w : ResponseWriter) (code : Z) : ResponseWriter :=
  match sent w with
  | Some _ => w
  | None => {| wHeader := wHeader w; sent := Some (code, wHeader w); wBody := wBody w |}
  end.

(** [w.Write(b)]: an implicit [WriteHeader(200)] when none was made. *)
Definition Write (w : ResponseWriter) (b : bytes) : ResponseWriter :=
  let w := WriteHeader w 200 in
  {| wHeader := wHeader w; sent := sent w; wBody := wBody w ++ b |}.

End http.

(** [io.ReadAll]: everything read, and the error if the stream failed. *)
Definition io_ReadAll (b : http.ReadCloser) : bytes * option string :=
  (http.data b, http.failure b).

(** [io.NopCloser(bytes.NewBuffer(body))]: a fresh stream over [body]. *)
Definition NopCloser_NewBuffer (body : bytes) : http.ReadCloser :=
  {| http.data := body; http.failure := None |}.

(** What the client receives once the handler has returned. *)
Definition clientStatus (w : http.ResponseWriter) : option Z := fst <$> http.sent w.
Definition clientHeader (w : http.ResponseWriter) : http.Header :=
  from_option snd ∅ (http.sent w).
Definition clientBody (w : http.ResponseWriter) : bytes := http.wBody w.

(** ** [main.go] *)

(** [time.Time], as a reading of the clock. *)
Definition Time := Z.

(** [type CachedResponse struct] (main.go, lines 18-23). *)
Record CachedResponse := {
  Response : bytes;
  StatusCode : Z;
  Headers : http.Header;
  Timestamp : Time
}.

(** [for k := range params]: the keys of a map, in the order the
    iteration happens to visit them. *)
Definition range_keys (params : url.Values) : list string :=
  (map_to_list params).*1.

(** The body of [generateCacheKey] after the keys have been collected in
    iteration order [ks]. *)
Definition cacheKeyFrom (method path : string) (params : url.Values)
    (ks : list string) : string :=
  if decide (size params = 0%nat) then method +:+ ":" +:+ path
  else
    let keys := sort_Strings ks in
    let queryParts :=
      keys ≫= (fun k => (fun v => k +:+ "=" +:+ v) <$> params !!! k) in
    let sortedQuery := strings_Join queryParts "&" in
    method +:+ ":" +:+ path +:+ "?" +:+ sortedQuery.

(** [generateCacheKey] (main.go, lines 149-170). *)
Definition generateCacheKey (r : http.Request) : string :=
  let params := url.Query (http.URL r) in
  cacheKeyFrom (http.Method r) (url.Path (http.URL r)) params (range_keys params).

(** ** Program state and effects *)

(** The global variable [cache], and a record of the requests sent to the
    origin so far, each as the director left it (oldest first). *)
Record World := {
  cache : gmap string CachedResponse;
  upstream : list http.Request
}.

(** What comes back for an outbound request: a transport error, or the
    status code, header set and body stream of the response as the reverse
    proxy presents it to its response hook. *)
Definition Answer : Type := string + (Z * http.Header * http.ReadCloser).

(** The surroundings of one exchange: the origin as seen through the
    transport, and the reading of the clock. *)
Record Env := {
  origin : http.Request -> Answer;
  clock : Time
}.

(** Handlers read the surroundings and thread the program state. *)
Definition M (A : Type) : Type := Env -> World -> A * World.

#[global] Instance M_ret : MRet M := fun A (a : A) _ w => (a, w).
#[global] Instance M_bind : MBind M := fun A B (f : A -> M B) (c : M A) env w =>
  let '(a, w') := c env w in f a env w'.

(** [time.Now()]. *)
Definition time_Now : M Time := fun env w => (clock env, w).

(** [cacheMutex.Lock(); v, found := cache[key]; cacheMutex.Unlock()]. *)
Definition cache_get (key : string) : M (option CachedResponse) :=
  fun _ w => (cache w !! key, w).

(** [cacheMutex.Lock(); cache[key] = v; cacheMutex.Unlock()]. *)
Definition cache_put (key : string) (v : CachedResponse) : M unit :=
  fun _ w => (tt, {| cache := <[key := v]> (cache w); upstream := upstream w |}).

(** [transport.RoundTrip(outreq)]: the request goes out; the response
    names it as the request it answers. *)
Definition transport_RoundTrip (outreq : http.Request) : M (string + http.Response) :=
  fun env w =>
    (match origin env outreq with
     | inl err => inl err
     | inr (code, hdr, body) =>
         inr {| http.StatusCode := code; http.RespHeader := hdr;
                http.Body := body; http.Request_ := outreq |}
     end,
     {| cache := cache w; upstream := upstream w ++ [outreq] |}).

(** ** [net/http/httputil]: the reverse proxy driver *)

Module httputil.

Record ReverseProxy := {
  Director : http.Request -> http.Request;
  ModifyResponse : http.Response -> M (string + http.Response)
}.

(** [for _, v := range vv { dst.Add(k, v) }]. *)
Definition addAll (dst : http.Header) (k : string) (vv : list string) : http.Header :=
  foldl (fun dst v => http.Add dst k v) dst vv.

(** [copyHeader(dst, src)]. *)
Definition copyHeader (dst src : http.Header) : http.Header :=
  foldl (fun dst kvv => addAll dst kvv.1 kvv.2) dst (map_to_list src).

(** The default error handler: [rw.WriteHeader(http.StatusBadGateway)]. *)
Definition defaultErrorHandler (rw : http.ResponseWriter) : http.ResponseWriter :=
  http.WriteHeader rw http.StatusBadGateway.

(** [p.ServeHTTP(rw, req)]: rewrite a copy of the request with the
    director, send it, run the response hook, then relay header, status
    and body; either failure ends in the error handler. *)
Definition ServeHTTP (p : ReverseProxy) (rw : http.ResponseWriter)
    (req : http.Request) : M http.ResponseWriter :=
  let outreq := Director p req in
  res ← transport_RoundTrip outreq;
  match res with
  | inl _ => mret (defaultErrorHandler rw)
  | inr res =>
      m ← ModifyResponse p res;
      match m with
      | inl _ => mret (defaultErrorHandler rw)
      | inr res =>
          let rw := http.onHeader (fun h => copyHeader h (http.RespHeader res)) rw in
          let rw := http.WriteHeader rw (http.StatusCode res) in
          mret (http.Write rw (http.data (http.Body res)))
      end
  end.

End httputil.

(** ** [createProxyHandler] *)

(** [proxy.ModifyResponse] (main.go, lines 62-91). *)
Definition ModifyResponse (resp : http.Response) : M (string + http.Response) :=
  let cacheKey := generateCacheKey (http.Request_ resp) in
  let '(body, err) := io_ReadAll (http.Body resp) in
  match err with
  | Some e => mret (inl ("failed to read response body for caching: " +:+ e))
  | None =>
      let resp := {| http.StatusCode := http.StatusCode resp;
                     http.RespHeader := http.RespHeader resp;
                     http.Body := NopCloser_NewBuffer body;
                     http.Request_ := http.Request_ resp |} in
      if (200 <=? http.StatusCode resp) && (http.StatusCode resp <? 300) then
        now ← time_Now;
        _ ← cache_put cacheKey {| Response := body;
                                  StatusCode := http.StatusCode resp;
                                  Headers := http.RespHeader resp;
                                  Timestamp := now |};
        mret (inr resp)
      else mret (inr resp)
  end.

(** [proxy.Director] (main.go, lines 94-100). *)
Definition Director (originURL : url.URL) (req : http.Request) : http.Request :=
  {| http.Method := http.Method req;
     http.URL := {| url.Scheme := url.Scheme originURL;
                    url.Host := url.Host originURL;
                    url.Path := url.Path (http.URL req);
                    url.RawQuery := url.RawQuery (http.URL req) |};
     http.Host := url.Host originURL;
     http.Header_ := http.Del (http.Header_ req) "X-Cache" |}.

Definition proxy (originURL : url.URL) : httputil.ReverseProxy :=
  {| httputil.Director := Director originURL;
     httputil.ModifyResponse := ModifyResponse |}.

(** The header loop of the hit branch (main.go, lines 124-133): every
    header of the cached response is added, except the two hop-by-hop
    ones. *)
Definition copyCached (h cached : http.Header) : http.Header :=
  foldl (fun h kvv =>
           if decide (kvv.1 = "Connection" \/ kvv.1 = "Transfer-Encoding") then h
           else httputil.addAll h kvv.1 kvv.2)
        h (map_to_list cached).

(** The handler function returned by [createProxyHandler(originURL)]
    (main.go, lines 102-146). *)
Definition createProxyHandler (originURL : url.URL) (w : http.ResponseWriter)
    (r : http.Request) : M http.ResponseWriter :=
  if decide (http.Method r <> http.MethodGet) then
    let w := http.onHeader (fun h => http.Set_ h "X-Cache" "BYPASS") w in
    httputil.ServeHTTP (proxy originURL) w r
  else
    let cacheKey := generateCacheKey r in
    found ← cache_get cacheKey;
    match found with
    | Some cachedResp =>
        let w := http.onHeader (fun h => http.Set_ h "X-Cache" "HIT") w in
        let w := http.onHeader (fun h => copyCached h (Headers cachedResp)) w in
        let w := http.onHeader (fun h =>
                   http.Set_ h "Content-Length"
                     (Sprintf_d (length (Response cachedResp)))) w in
        let w := http.WriteHeader w (StatusCode cachedResp) in
        mret (http.Write w (Response cachedResp))
    | None =>
        let w := http.onHeader (fun h => http.Set_ h "X-Cache" "MISS") w in
        httputil.ServeHTTP (proxy originURL) w r
    end.

(** One exchange: the server hands the handler a fresh response writer. *)
Definition serve (originURL : url.URL) (env : Env) (r : http.Request)
    (w : World) : http.ResponseWriter * World :=
  createProxyHandler originURL http.newResponseWriter r env w.

(** A run of exchanges, each in its own surroundings. *)
Fixpoint serveAll (originURL : url.URL) (xs : list (Env * http.Request))
    (w : World) : list http.ResponseWriter * World :=
  match xs with
  | [] => ([], w)
  | (env, r) :: xs =>
      let '(rw, w) := serve originURL env r w in
      let '(rws, w) := serveAll originURL xs w in
      (rw :: rws, w)
  end.

(** The state at process start: [make(map[string]*CachedResponse)]. *)
Definition initial : World := {| cache := ∅; upstream := [] |}.

(** ** Auxiliary notions used in the statements *)

(** The values a query string gives to parameter [k], in the order in
    which they appear. *)
Definition values_of (k : string) (q : list (string * string)) : list string :=
  (filter (fun kv => kv.1 = k) q).*2.

(** The cache key as the specification words it: without parameters
    [METHOD:PATH]; otherwise the names sorted, one [name=value] pair per
    value of each name in the order given, joined with ampersands. *)
Definition spec_names (q : list (string * string)) : list string :=
  sort_Strings (remove_dups q.*1).

Definition spec_pairs (q : list (string * string)) : list string :=
  spec_names q ≫= (fun n => (fun v => n +:+ "=" +:+ v) <$> values_of n q).

Definition spec_cacheKey (r : http.Request) : string :=
  let q := url.RawQuery (http.URL r) in
  match q with
  | [] => http.Method r +:+ ":" +:+ url.Path (http.URL r)
  | _ :: _ =>
      http.Method r +:+ ":" +:+ url.Path (http.URL r) +:+ "?"
        +:+ strings_Join (spec_pairs q) "&"
  end.

(** A request line [m p?q] as the server hands it to the handler. *)
Definition request (m p : string) (q : list (string * string)) : http.Request :=
  {| http.Method := m;
     http.URL := {| url.Scheme := EmptyString; url.Host := EmptyString; url.Path := p; url.RawQuery := q |};
     http.Host := "localhost:8080";
     http.Header_ := ∅ |}.

(** The pairs of a query string grouped by name, names ascending. *)
Definition grouped (q : list (string * string)) : list (string * string) :=
  spec_names q ≫= (fun n => (fun v => (n, v)) <$> values_of n q).

(** None of the characters the key uses as separators occurs where it
    would be taken for one: no colon in the method, no question mark in
    the path, no equals sign or ampersand in a parameter name, no
    ampersand in a parameter value. *)
Definition separatorFree (r : http.Request) : bool :=
  negb (occurs ":" (http.Method r))
  && negb (occurs "?" (url.Path (http.URL r)))
  && forallb (fun kv => negb (occurs "=" kv.1) && negb (occurs "&" kv.1)
                        && negb (occurs "&" kv.2))
       (url.RawQuery (http.URL r)).

(** What follows the path in a key. *)
Definition keySuffix (q : list (string * string)) : string :=
  match q with
  | [] => EmptyString
  | _ :: _ => String "?" (strings_Join (spec_pairs q) "&")
  end.

(** The condition [separatorFree] puts on one parameter. *)
Definition pairFree (kv : string * string) : Prop :=
  occurs "=" kv.1 = false /\ occurs "&" kv.1 = false /\ occurs "&" kv.2 = false.

(** The cache marker on a response. *)
Definition marker (rw : http.ResponseWriter) : string :=
  http.Get (clientHeader rw) "X-Cache".

(** Every key of a header map is in canonical form, as the keys of the
    header maps of [net/http] are. *)
Definition canonicalKeys (h : http.Header) : bool :=
  forallb (fun k => String.eqb (http.CanonicalHeaderKey k) k) (range_keys h).

(** The two header names the hit branch leaves out. *)
Definition hopByHop (k : string) : bool :=
  bool_decide (k = "Connection" \/ k = "Transfer-Encoding").

(** A loop adding the entries [l] of a header map to [h], leaving out the
    names [skip] selects. *)
Definition addEntries (skip : string -> bool) (h : http.Header)
    (l : list (string * list string)) : http.Header :=
  foldl (fun h kvv => if skip kvv.1 then h else httputil.addAll h kvv.1 kvv.2) h l.

(** All values the entries [l] hold for the name [k]. *)
Definition entry_values (k : string) (l : list (string * list string)) : list string :=
  concat (filter (fun kvv => kvv.1 = k) l).*2.

(** A header slot after values were appended to it: untouched when there
    was nothing to append. *)
Definition extend (o : option (list string)) (vs : list string) : option (list string) :=
  match vs with
  | [] => o
  | _ :: _ => Some (default [] o ++ vs)
  end.

(** The state after an outbound request has been sent. *)
Definition sentTo (w : World) (outreq : http.Request) : World :=
  {| cache := cache w; upstream := upstream w ++ [outreq] |}.

(** The state after a record has been put under [key]. *)
Definition stored (w : World) (key : string) (c : CachedResponse) : World :=
  {| cache := <[key := c]> (cache w); upstream := upstream w |}.

(** The response writer after the reverse proxy has relayed a response. *)
Definition relay (rw : http.ResponseWriter) (code : Z) (hdr : http.Header)
    (body : bytes) : http.ResponseWriter :=
  http.Write
    (http.WriteHeader (http.onHeader (fun h => httputil.copyHeader h hdr) rw) code)
    body.

(** The record [ModifyResponse] builds from a response read at time [t]. *)
Definition recordOf (t : Time) (code : Z) (hdr : http.Header) (body : bytes)
    : CachedResponse :=
  {| Response := body; StatusCode := code; Headers := hdr; Timestamp := t |}.

(** The response writer as the handler finds it once the marker [m] has
    been set. *)
Definition marked (m : string) : http.ResponseWriter :=
  http.onHeader (fun h => http.Set_ h "X-Cache" m) http.newResponseWriter.

(** The response the hit branch writes from a cached record. *)
Definition hitResponse (c : CachedResponse) : http.ResponseWriter :=
  let w := marked "HIT" in
  let w := http.onHeader (fun h => copyCached h (Headers c)) w in
  let w := http.onHeader (fun h =>
             http.Set_ h "Content-Length" (Sprintf_d (length (Response c)))) w in
  let w := http.WriteHeader w (StatusCode c) in
  http.Write w (Response c).

(** A response whose body has been read and replaced by a fresh stream
    over the bytes read. *)
Definition buffered (resp : http.Response) : http.Response :=
  {| http.StatusCode := http.StatusCode resp;
     http.RespHeader := http.RespHeader resp;
     http.Body := NopCloser_NewBuffer (http.data (http.Body resp));
     http.Request_ := http.Request_ resp |}.

(** How forwarding a request to the origin ends: without a usable
    answer, with a relayed and stored response, or with a relayed
    response that is not stored. *)
Inductive Forwarded (originURL : url.URL) (r : http.Request) (env : Env)
    (rw : http.ResponseWriter) (w : World) : http.ResponseWriter * World -> Prop :=
| fwd_failed :
    (exists e, origin env (Director originURL r) = inl e) \/
    (exists code hdr body e,
        origin env (Director originURL r) = inr (code, hdr, body) /\
        http.failure body = Some e) ->
    Forwarded originURL r env rw w
      (httputil.defaultErrorHandler rw, sentTo w (Director originURL r))
| fwd_stored code hdr body :
    origin env (Director originURL r) = inr (code, hdr, body) ->
    http.failure body = None ->
    200 <= code < 300 ->
    Forwarded originURL r env rw w
      (relay rw code hdr (http.data body),
       stored (sentTo w (Director originURL r)) (generateCacheKey r)
         (recordOf (clock env) code hdr (http.data body)))
| fwd_relayed code hdr body :
    origin env (Director originURL r) = inr (code, hdr, body) ->
    http.failure body = None ->
    ~ 200 <= code < 300 ->
    Forwarded originURL r env rw w
      (relay rw code hdr (http.data body), sentTo w (Director originURL r)).

(** Every record in the store has a 2xx status. *)
Definition all2xx (w : World) : Prop :=
  map_Forall (fun _ c => 200 <= StatusCode c < 300) (cache w).

(** ** Sample surroundings *)

Definition originExample : url.URL :=
  {| url.Scheme := "http"; url.Host := "origin.example:9000";
     url.Path := EmptyString; url.RawQuery := [] |}.

(** A body stream that yields the bytes of [s]. *)
Definition stream (s : string) : http.ReadCloser :=
  {| http.data := list_byte_of_string s; http.failure := None |}.

(** A body stream that breaks off with the error [e] after the bytes of
    [s]. *)
Definition brokenStream (s e : string) : http.ReadCloser :=
  {| http.data := list_byte_of_string s; http.failure := Some e |}.

(** Surroundings in which the origin gives the answer [a] to every
    request and the clock reads [t]. *)
Definition answering (a : Answer) (t : Time) : Env :=
  {| origin := fun _ => a; clock := t |}.

Definition jsonHeader : http.Header :=
  {["Content-Type" := ["application/json"]; "Connection" := ["keep-alive"]]}.

(** Every record in the store has header keys in canonical form. *)
Definition canonicalStore (w : World) : Prop :=
  map_Forall (fun _ c => canonicalKeys (Headers c) = true) (cache w).

(** The origin's answers have header keys in canonical form. *)
Definition canonicalEnv (env : Env) : Prop :=
  forall req code hdr body,
    origin env req = inr (code, hdr, body) -> canonicalKeys hdr = true.

(** In the exchange [x], a request with key [key] does not get a 2xx
    answer from the origin. *)
Definition unsuccessfulFor (originURL : url.URL) (key : string)
    (x : Env * http.Request) : Prop :=
  generateCacheKey x.2 = key ->
  forall code hdr body,
    origin x.1 (Director originURL x.2) = inr (code, hdr, body) ->
    ~ 200 <= code < 300.

(** In the exchange [x], a GET with key [key] got the response [rw]
    marked [MISS]. *)
Definition missFor (key : string) (x : Env * http.Request)
    (rw : http.ResponseWriter) : Prop :=
  http.Method x.2 = http.MethodGet -> generateCacheKey x.2 = key ->
  marker rw = "MISS".

(** ** [main] (main.go, lines 29-57) *)

(** The command-line flags [--port], [--origin] and [--clear-cache]. *)
Record Flags := {
  port : Z;
  originStr : string;
  clearCache : bool
}.

(** How [main] ends: it returns, it stops in [log.Fatal], or it stays in
    [http.ListenAndServe(addr, handler)]. *)
Inductive Exit :=
| Returned
| Fatal (msg : string)
| ListenAndServe (addr : string)
    (handler : http.ResponseWriter -> http.Request -> M http.ResponseWriter).

(** [fmt.Sprintf(":%d", port)]. *)
Definition listenAddr (p : Z) : string :=
  ":" +:+ NilEmpty.string_of_int (Z.to_int p).

(** [main], after [flag.Parse()]; [url_Parse] stands for [url.Parse].
    Console and log output is left out. *)
Definition main (url_Parse : string -> string + url.URL) (flags : Flags)
    (w : World) : Exit * World :=
  if clearCache flags then
    (Returned, {| cache := ∅; upstream := upstream w |})
  else if decide (originStr flags = EmptyString) then
    (Fatal "--origin URL is required", w)
  else
    match url_Parse (originStr flags) with
    | inl err => (Fatal ("Invalid origin URL: " +:+ err), w)
    | inr originURL =>
        (ListenAndServe (listenAddr (port flags)) (createProxyHandler originURL), w)
    end.

(** The header loop of the hit branch run over the entries of the cached
    header map in a given order. *)
Definition hitLoop (h : http.Header) (entries : list (string * list string))
    : http.Header :=
  foldl (fun h kvv =>
           if decide (kvv.1 = "Connection" \/ kvv.1 = "Transfer-Encoding") then h
           else httputil.addAll h kvv.1 kvv.2)
        h entries.


(** The exchange is answered from the store. *)
Definition isHit (r : http.Request) (w : World) : Prop :=
  http.Method r = http.MethodGet /\ is_Some (cache w !! generateCacheKey r).

#[global] Instance isHit_dec r w : Decision (isHit r w).
Proof. unfold isHit. apply _. Defined.

(** A readable response with status [code] and body [s] to the request
    [req]. *)
Definition responseTo (req : http.Request) (code : Z) (s : string) : http.Response :=
  {| http.StatusCode := code; http.RespHeader := jsonHeader;
     http.Body := stream s; http.Request_ := req |}.

(** A GET for [/users/1] as a second client might send it: another
    [Host], credentials and a marker of its own. *)
Definition otherClient : http.Request :=
  {| http.Method := "GET";
     http.URL := {| url.Scheme := EmptyString; url.Host := EmptyString;
                    url.Path := "/users/1"; url.RawQuery := [] |};
     http.Host := "proxy.internal";
     http.Header_ := {["Authorization" := ["Bearer t0k3n"]; "X-Cache" := ["HIT"]]} |}.

(** * Properties of the query map *)

Section query.

Implicit Types (q : list (string * string)) (m : url.Values) (k : string).

Lemma values_of_cons k k' v q :
  values_of k ((k', v) :: q) =
    if decide (k' = k) then v :: values_of k q else values_of k q.
Proof.
  unfold values_of. rewrite filter_cons. simpl.
  destruct (decide (k' = k)); reflexivity.
Qed.

Lemma values_of_nil_iff k q : values_of k q = [] <-> k ∉ q.*1.
Proof.
  induction q as [|[k' v] q IH]; simpl.
  - split; [intros _; apply not_elem_of_nil | reflexivity].
  - rewrite values_of_cons, not_elem_of_cons.
    destruct (decide (k' = k)) as [->|Hne].
    + split; [discriminate | intros [[] _]; reflexivity].
    + rewrite IH. intuition congruence.
Qed.

Lemma ParseQuery_cons m kv q :
  foldl url.appendValue m (kv :: q) =
  foldl url.appendValue (<[kv.1 := m !!! kv.1 ++ [kv.2]]> m) q.
Proof. reflexivity. Qed.

Lemma foldl_appendValue_lookup_total m q k :
  foldl url.appendValue m q !!! k = m !!! k ++ values_of k q.
Proof.
  revert m. induction q as [|[k' v] q IH]; intros m.
  - unfold values_of. simpl. by rewrite app_nil_r.
  - rewrite ParseQuery_cons, IH, values_of_cons. simpl.
    destruct (decide (k' = k)) as [->|Hne].
    + by rewrite lookup_total_insert_eq, <- app_assoc.
    + by rewrite lookup_total_insert_ne.
Qed.

Lemma foldl_appendValue_is_Some m q k :
  is_Some (foldl url.appendValue m q !! k) <-> is_Some (m !! k) \/ k ∈ q.*1.
Proof.
  revert m. induction q as [|[k' v] q IH]; intros m.
  - simpl. split; [by left | intros [?|H]; [done | by apply elem_of_nil in H]].
  - rewrite ParseQuery_cons, IH, fmap_cons, elem_of_cons. simpl.
    destruct (decide (k' = k)) as [->|Hne].
    + rewrite lookup_insert_eq. split; [intros _; right; by left | intros _; left; eauto].
    + rewrite lookup_insert_ne by done. intuition congruence.
Qed.

(** The map [Query] builds gives each name its values in query-string
    order and holds no other name. *)
Lemma ParseQuery_lookup_total q k : url.ParseQuery q !!! k = values_of k q.
Proof.
  unfold url.ParseQuery. rewrite foldl_appendValue_lookup_total.
  by rewrite lookup_total_empty.
Qed.

Lemma ParseQuery_is_Some q k : is_Some (url.ParseQuery q !! k) <-> k ∈ q.*1.
Proof.
  unfold url.ParseQuery. rewrite foldl_appendValue_is_Some.
  rewrite lookup_empty. split; [intros [[? [=]]|?]; done | by right].
Qed.

Lemma ParseQuery_lookup q k :
  url.ParseQuery q !! k =
    if decide (k ∈ q.*1) then Some (values_of k q) else None.
Proof.
  destruct (decide (k ∈ q.*1)) as [Hin|Hin].
  - apply ParseQuery_is_Some in Hin as [vv Hvv].
    rewrite Hvv. f_equal. rewrite <- ParseQuery_lookup_total.
    by rewrite lookup_total_alt, Hvv.
  - apply eq_None_not_Some. by rewrite ParseQuery_is_Some.
Qed.

Lemma ParseQuery_size_0 q : size (url.ParseQuery q) = 0%nat <-> q = [].
Proof.
  rewrite map_size_empty_iff. split.
  - intros Hm. destruct q as [|[k v] q]; [done|].
    assert (is_Some (url.ParseQuery ((k, v) :: q) !! k)) as [? Hk].
    { apply ParseQuery_is_Some. simpl. by left. }
    by rewrite Hm, lookup_empty in Hk.
  - by intros ->.
Qed.

(** Two query strings with the same value sequence for every name parse
    to the same map. *)
Lemma ParseQuery_ext q1 q2 :
  (forall k, values_of k q1 = values_of k q2) ->
  url.ParseQuery q1 = url.ParseQuery q2.
Proof.
  intros Hv. apply map_eq. intros k. rewrite !ParseQuery_lookup.
  assert (k ∈ q1.*1 <-> k ∈ q2.*1) as Hin.
  { destruct (decide (k ∈ q1.*1)) as [H1|H1], (decide (k ∈ q2.*1)) as [H2|H2];
      try tauto.
    - apply values_of_nil_iff in H2. rewrite <- Hv in H2.
      by apply values_of_nil_iff in H2.
    - apply values_of_nil_iff in H1. rewrite Hv in H1.
      by apply values_of_nil_iff in H1. }
  destruct (decide (k ∈ q1.*1)), (decide (k ∈ q2.*1)); try tauto.
  by rewrite Hv.
Qed.

End query.

(** * Sorting the parameter names *)

Lemma sort_Strings_sorted l : StronglySorted String.le (sort_Strings l).
Proof. apply (StronglySorted_merge_sort String.le). Qed.

Lemma sort_Strings_perm l : sort_Strings l ≡ₚ l.
Proof. apply (merge_sort_Permutation String.le). Qed.

(** The sorted slice does not depend on the order in which the names
    were collected. *)
Lemma sort_Strings_order_irrelevant l1 l2 :
  l1 ≡ₚ l2 -> sort_Strings l1 = sort_Strings l2.
Proof.
  intros Hp. apply (StronglySorted_unique String.le).
  - apply sort_Strings_sorted.
  - apply sort_Strings_sorted.
  - by rewrite !sort_Strings_perm.
Qed.

Lemma elem_of_range_keys (params : url.Values) k :
  k ∈ range_keys params <-> is_Some (params !! k).
Proof.
  unfold range_keys. rewrite list_elem_of_fmap. split.
  - intros [[k' v] [-> Hin]]. apply elem_of_map_to_list in Hin. eauto.
  - intros [v Hv]. exists (k, v). split; [done|]. by apply elem_of_map_to_list.
Qed.

Lemma range_keys_ParseQuery q :
  range_keys (url.ParseQuery q) ≡ₚ remove_dups q.*1.
Proof.
  apply NoDup_Permutation.
  - apply NoDup_fst_map_to_list.
  - apply NoDup_remove_dups.
  - intros k. by rewrite elem_of_range_keys, ParseQuery_is_Some, elem_of_remove_dups.
Qed.

(** Whatever order the iteration over the map takes, the key is the
    same. *)
Lemma cacheKeyFrom_order_irrelevant method path params ks :
  ks ≡ₚ range_keys params ->
  cacheKeyFrom method path params ks =
  cacheKeyFrom method path params (range_keys params).
Proof.
  intros Hp. unfold cacheKeyFrom.
  by rewrite (sort_Strings_order_irrelevant _ _ Hp).
Qed.

Lemma generateCacheKey_spec r : generateCacheKey r = spec_cacheKey r.
Proof.
  unfold generateCacheKey, spec_cacheKey, cacheKeyFrom, url.Query.
  destruct (url.RawQuery (http.URL r)) as [|kv q] eqn:Hq.
  - reflexivity.
  - case_decide as Hsz.
    + by apply ParseQuery_size_0 in Hsz.
    + do 4 f_equal. unfold spec_pairs, spec_names.
      rewrite (sort_Strings_order_irrelevant _ _ (range_keys_ParseQuery (kv :: q))).
      f_equal. apply list_bind_ext; [|done]. intros k.
      by rewrite ParseQuery_lookup_total.
Qed.

(** * Cache keys *)

(** C2: the key is built by the stated algorithm: without query
    parameters it is [METHOD:PATH]; otherwise [METHOD:PATH?pairs] where
    the names are in ascending order without repetition, each name
    contributes one [name=value] pair per value in the order the query
    string gives them, and the pairs are joined with ampersands.  This is
    so whatever order the iteration over the parameter map takes. *)
Theorem generateCacheKey_algorithm (r : http.Request) :
  generateCacheKey r = spec_cacheKey r /\
  (forall ks, ks ≡ₚ range_keys (url.Query (http.URL r)) ->
     cacheKeyFrom (http.Method r) (url.Path (http.URL r))
       (url.Query (http.URL r)) ks = spec_cacheKey r) /\
  StronglySorted String.le (spec_names (url.RawQuery (http.URL r))) /\
  NoDup (spec_names (url.RawQuery (http.URL r))) /\
  (forall n, n ∈ spec_names (url.RawQuery (http.URL r)) <->
             n ∈ (url.RawQuery (http.URL r)).*1).
Proof.
  split; [apply generateCacheKey_spec|]. split.
  { intros ks Hks. rewrite cacheKeyFrom_order_irrelevant by done.
    apply generateCacheKey_spec. }
  unfold spec_names.
  split; [apply sort_Strings_sorted|]. split.
  - rewrite sort_Strings_perm. apply NoDup_remove_dups.
  - intros n. by rewrite sort_Strings_perm, elem_of_remove_dups.
Qed.

Lemma generateCacheKey_algorithm_witness :
  cacheKeyFrom "GET" "/items"
    (url.ParseQuery [("tag", "x"); ("a", "1"); ("tag", "y")]) ["tag"; "a"]
  = "GET:/items?a=1&tag=x&tag=y".
Proof.
  apply (proj1 (proj2 (generateCacheKey_algorithm
                         (request "GET" "/items" [("tag", "x"); ("a", "1"); ("tag", "y")])))).
  vm_compute. apply perm_swap.
Defined.

Example key_without_query :
  generateCacheKey (request "GET" "/users/1" []) = "GET:/users/1".
Proof. reflexivity. Qed.

Example key_repeated_parameter :
  generateCacheKey (request "GET" "/items" [("tag", "x"); ("a", "1"); ("tag", "y")])
  = "GET:/items?a=1&tag=x&tag=y".
Proof. vm_compute. reflexivity. Qed.

(** C3: two requests with the same method and path whose query strings
    give every parameter name the same sequence of values have the same
    key, in whatever order the names appear in the query strings and in
    whatever order the parameter maps are iterated over. *)
Theorem generateCacheKey_query_order (r1 r2 : http.Request) :
  http.Method r1 = http.Method r2 ->
  url.Path (http.URL r1) = url.Path (http.URL r2) ->
  (forall n, values_of n (url.RawQuery (http.URL r1)) =
             values_of n (url.RawQuery (http.URL r2))) ->
  generateCacheKey r1 = generateCacheKey r2 /\
  (forall ks1 ks2,
     ks1 ≡ₚ range_keys (url.Query (http.URL r1)) ->
     ks2 ≡ₚ range_keys (url.Query (http.URL r2)) ->
     cacheKeyFrom (http.Method r1) (url.Path (http.URL r1))
       (url.Query (http.URL r1)) ks1 =
     cacheKeyFrom (http.Method r2) (url.Path (http.URL r2))
       (url.Query (http.URL r2)) ks2).
Proof.
  intros Hm Hp Hq.
  assert (generateCacheKey r1 = generateCacheKey r2) as Hkey.
  { unfold generateCacheKey, url.Query.
    by rewrite Hm, Hp, (ParseQuery_ext _ _ Hq). }
  split; [done|]. intros ks1 ks2 H1 H2.
  rewrite (cacheKeyFrom_order_irrelevant _ _ _ _ H1),
    (cacheKeyFrom_order_irrelevant _ _ _ _ H2).
  exact Hkey.
Qed.

Lemma generateCacheKey_query_order_witness :
  generateCacheKey (request "GET" "/items" [("b", "2"); ("a", "1")]) =
  generateCacheKey (request "GET" "/items" [("a", "1"); ("b", "2")]).
Proof.
  apply (fun H => proj1 (generateCacheKey_query_order
           (request "GET" "/items" [("b", "2"); ("a", "1")])
           (request "GET" "/items" [("a", "1"); ("b", "2")]) eq_refl eq_refl H)).
  intros n. simpl. rewrite !values_of_cons.
  destruct (decide ("b" = n)) as [<-|]; [reflexivity|].
  destruct (decide ("a" = n)); reflexivity.
Defined.

(** * Delimiters inside keys *)

Section delimiters.

Implicit Types (c : ascii) (s t : string).

Lemma append_String c s t : String c s +:+ t = String c (s +:+ t).
Proof. reflexivity. Qed.

Lemma append_nil_r s : s +:+ EmptyString = s.
Proof. induction s as [|a s IH]; [done|]. by rewrite append_String, IH. Qed.

Lemma append_assoc s t u : (s +:+ t) +:+ u = s +:+ t +:+ u.
Proof. induction s as [|a s IH]; [done|]. by rewrite !append_String, IH. Qed.

Lemma occurs_app c s t : occurs c (s +:+ t) = occurs c s || occurs c t.
Proof.
  induction s as [|a s IH]; [done|].
  rewrite append_String. simpl. by rewrite IH, orb_assoc.
Qed.

Lemma occurs_String_same c s : occurs c (String c s) = true.
Proof. simpl. by rewrite Ascii.eqb_refl. Qed.

(** A string is cut in one way only at the first occurrence of a
    character. *)
Lemma cut_unique c s1 t1 s2 t2 :
  occurs c s1 = false -> occurs c s2 = false ->
  s1 +:+ String c t1 = s2 +:+ String c t2 ->
  s1 = s2 /\ t1 = t2.
Proof.
  revert s2. induction s1 as [|a s1 IH]; intros [|b s2] H1 H2 Heq.
  - by injection Heq.
  - rewrite append_String in Heq. injection Heq as <- _.
    by rewrite occurs_String_same in H2.
  - rewrite append_String in Heq. injection Heq as -> _.
    by rewrite occurs_String_same in H1.
  - rewrite !append_String in Heq. injection Heq as -> Heq.
    simpl in H1, H2. apply orb_false_elim in H1 as [_ H1].
    apply orb_false_elim in H2 as [_ H2].
    destruct (IH s2 H1 H2 Heq) as [-> ->]. done.
Qed.

(** A string without the character is not a string with it. *)
Lemma cut_absent c s s2 t2 :
  occurs c s = false -> s <> s2 +:+ String c t2.
Proof.
  intros Hs ->. by rewrite occurs_app, occurs_String_same, orb_true_r in Hs.
Qed.

(** [strings.Join] can be undone when no element holds the separator. *)
Lemma strings_Join_cons e1 e2 rest c :
  strings_Join (e1 :: e2 :: rest) (String c EmptyString) =
  e1 +:+ String c (strings_Join (e2 :: rest) (String c EmptyString)).
Proof. reflexivity. Qed.

Lemma strings_Join_inj c (l1 l2 : list string) :
  Forall (fun e => occurs c e = false) l1 ->
  Forall (fun e => occurs c e = false) l2 ->
  l1 <> [] -> l2 <> [] ->
  strings_Join l1 (String c EmptyString) = strings_Join l2 (String c EmptyString) ->
  l1 = l2.
Proof.
  intros H1. revert l2.
  induction H1 as [|e1 l1 He1 H1 IH]; intros l2 H2 Hn1 Hn2 Heq; [done|].
  destruct H2 as [|e2 l2 He2 H2]; [done|].
  destruct l1 as [|x1 l1], l2 as [|x2 l2].
  - simpl in Heq. by subst.
  - rewrite strings_Join_cons in Heq. change (strings_Join [e1] _) with e1 in Heq.
    by apply cut_absent in Heq.
  - rewrite strings_Join_cons in Heq. change (strings_Join [e2] _) with e2 in Heq.
    symmetry in Heq. by apply cut_absent in Heq.
  - rewrite !strings_Join_cons in Heq.
    apply cut_unique in Heq as [-> Heq]; [|done..].
    f_equal. by apply IH.
Qed.

End delimiters.

(** * Reading a key back *)

Section injectivity.

Implicit Types (q : list (string * string)) (n : string).

Lemma values_of_app n q1 q2 :
  values_of n (q1 ++ q2) = values_of n q1 ++ values_of n q2.
Proof. unfold values_of. by rewrite filter_app, fmap_app. Qed.

Lemma values_of_tagged n n' (vs : list string) :
  values_of n ((fun v => (n', v)) <$> vs) = if decide (n' = n) then vs else [].
Proof.
  induction vs as [|v vs IH].
  - by destruct (decide (n' = n)).
  - rewrite fmap_cons, values_of_cons, IH. by destruct (decide (n' = n)).
Qed.

Lemma values_of_bind n (ns : list string) (vs : string -> list string) :
  NoDup ns ->
  values_of n (ns ≫= (fun n' => (fun v => (n', v)) <$> vs n')) =
    if decide (n ∈ ns) then vs n else [].
Proof.
  induction 1 as [|n' ns Hn' Hnd IH].
  - by rewrite decide_False by apply not_elem_of_nil.
  - rewrite bind_cons, values_of_app, values_of_tagged, IH.
    destruct (decide (n' = n)) as [->|Hne].
    + destruct (decide (n ∈ ns)) as [|_]; [done|].
      destruct (decide (n ∈ n :: ns)) as [_|Hout]; [by rewrite app_nil_r|].
      destruct Hout. by left.
    + destruct (decide (n ∈ ns)) as [Hin|Hin];
        destruct (decide (n ∈ n' :: ns)) as [Hin'|Hin']; try done.
      * destruct Hin'. by right.
      * apply elem_of_cons in Hin' as [?|?]; [congruence | done].
Qed.

Lemma spec_names_NoDup q : NoDup (spec_names q).
Proof. unfold spec_names. rewrite sort_Strings_perm. apply NoDup_remove_dups. Qed.

Lemma elem_of_spec_names q n : n ∈ spec_names q <-> n ∈ q.*1.
Proof. unfold spec_names. by rewrite sort_Strings_perm, elem_of_remove_dups. Qed.

(** Grouping keeps every name's value sequence. *)
Lemma values_of_grouped n q : values_of n (grouped q) = values_of n q.
Proof.
  unfold grouped. rewrite values_of_bind by apply spec_names_NoDup.
  destruct (decide (n ∈ spec_names q)) as [Hin|Hin]; [done|].
  symmetry. apply values_of_nil_iff. by rewrite <- elem_of_spec_names.
Qed.

Lemma elem_of_values_of n v q : v ∈ values_of n q <-> (n, v) ∈ q.
Proof.
  unfold values_of. rewrite list_elem_of_fmap. split.
  - intros [[n' v'] [-> Hin]]. apply list_elem_of_filter in Hin as [Hn Hin].
    simpl in Hn. by subst.
  - intros Hin. exists (n, v). split; [done|]. by apply list_elem_of_filter.
Qed.

Lemma elem_of_grouped kv q : kv ∈ grouped q -> kv ∈ q.
Proof.
  unfold grouped. rewrite list_elem_of_bind. intros (n & Hkv & _).
  apply list_elem_of_fmap in Hkv as (v & -> & Hv). by apply elem_of_values_of.
Qed.

Lemma grouped_nonempty q : q <> [] -> grouped q <> [].
Proof.
  destruct q as [|[n v] q]; [done|]. intros _ Hnil.
  assert (v ∈ values_of n (grouped ((n, v) :: q))) as Hv.
  { rewrite values_of_grouped, elem_of_values_of. by left. }
  rewrite Hnil in Hv. by apply elem_of_nil in Hv.
Qed.

Lemma spec_pairs_grouped q :
  spec_pairs q = (fun kv => kv.1 +:+ "=" +:+ kv.2) <$> grouped q.
Proof.
  unfold spec_pairs, grouped. induction (spec_names q) as [|n ns IH]; [done|].
  rewrite !bind_cons, fmap_app, IH. f_equal. by rewrite <- list_fmap_compose.
Qed.

Lemma length_append (s t : string) :
  String.length (s +:+ t) = (String.length s + String.length t)%nat.
Proof. induction s as [|a s IH]; [done|]. rewrite append_String. simpl. by rewrite IH. Qed.

Lemma append_cancel_r (s1 s2 t : string) : s1 +:+ t = s2 +:+ t -> s1 = s2.
Proof.
  revert s2. induction s1 as [|a s1 IH]; intros [|b s2] Heq.
  - done.
  - apply (f_equal String.length) in Heq. rewrite !length_append in Heq.
    simpl in Heq. lia.
  - apply (f_equal String.length) in Heq. rewrite !length_append in Heq.
    simpl in Heq. lia.
  - rewrite !append_String in Heq. injection Heq as -> Heq. f_equal. by apply IH.
Qed.

Lemma pair_inj k1 v1 k2 v2 :
  occurs "=" k1 = false -> occurs "=" k2 = false ->
  k1 +:+ "=" +:+ v1 = k2 +:+ "=" +:+ v2 -> (k1, v1) = (k2, v2).
Proof.
  intros H1 H2 Heq.
  change (k1 +:+ String "=" v1 = k2 +:+ String "=" v2) in Heq.
  by destruct (cut_unique _ _ _ _ _ H1 H2 Heq) as [-> ->].
Qed.

Lemma fmap_inj_on {A B} (f : A -> B) (P : A -> Prop) (l1 l2 : list A) :
  (forall x y, P x -> P y -> f x = f y -> x = y) ->
  Forall P l1 -> Forall P l2 -> f <$> l1 = f <$> l2 -> l1 = l2.
Proof.
  intros Hf H1. revert l2.
  induction H1 as [|x l1 Hx H1 IH]; intros l2 H2 Heq.
  - destruct l2; [done | discriminate].
  - destruct H2 as [|y l2 Hy H2]; [discriminate|].
    rewrite !fmap_cons in Heq. injection Heq as Hxy Heq.
    f_equal; [by apply Hf | by apply IH].
Qed.

Lemma separatorFree_parts r :
  separatorFree r = true ->
  occurs ":" (http.Method r) = false /\
  occurs "?" (url.Path (http.URL r)) = false /\
  Forall pairFree (url.RawQuery (http.URL r)).
Proof.
  unfold separatorFree. rewrite !andb_true_iff, !negb_true_iff, forallb_forall.
  intros [[Hm Hp] Hq]. repeat split; try done.
  apply Forall_forall. intros kv Hin%list_elem_of_In. specialize (Hq kv Hin).
  rewrite !andb_true_iff, !negb_true_iff in Hq. unfold pairFree. tauto.
Qed.

Lemma grouped_pairFree q : Forall pairFree q -> Forall pairFree (grouped q).
Proof.
  rewrite !Forall_forall. intros Hq kv Hin. by apply Hq, elem_of_grouped.
Qed.

Lemma pairFree_no_ampersand q :
  Forall pairFree q ->
  Forall (fun e => occurs "&" e = false) ((fun kv => kv.1 +:+ "=" +:+ kv.2) <$> q).
Proof.
  intros Hq. apply Forall_fmap. eapply Forall_impl; [exact Hq|].
  intros [k v] (_ & Hk & Hv). simpl in *.
  by rewrite !occurs_app, Hk, Hv.
Qed.

(** The joined pairs determine the grouped pairs. *)
Lemma joined_pairs_inj q1 q2 :
  Forall pairFree q1 -> Forall pairFree q2 -> q1 <> [] -> q2 <> [] ->
  strings_Join (spec_pairs q1) "&" = strings_Join (spec_pairs q2) "&" ->
  grouped q1 = grouped q2.
Proof.
  intros H1 H2 Hn1 Hn2 Heq. rewrite !spec_pairs_grouped in Heq.
  apply grouped_pairFree in H1, H2.
  apply strings_Join_inj in Heq.
  - eapply (fmap_inj_on _ pairFree); [|done..].
    intros [k1 v1] [k2 v2] (Hk1 & _) (Hk2 & _). by apply pair_inj.
  - by apply pairFree_no_ampersand.
  - by apply pairFree_no_ampersand.
  - intros Hnil%fmap_nil_inv. by apply grouped_nonempty in Hnil.
  - intros Hnil%fmap_nil_inv. by apply grouped_nonempty in Hnil.
Qed.

(** The grouped pairs determine the query map. *)
Lemma grouped_ParseQuery q1 q2 :
  grouped q1 = grouped q2 -> url.ParseQuery q1 = url.ParseQuery q2.
Proof.
  intros Heq. apply ParseQuery_ext. intros n.
  by rewrite <- (values_of_grouped n q1), Heq, values_of_grouped.
Qed.

Lemma spec_cacheKey_shape r :
  spec_cacheKey r =
  http.Method r +:+
    String ":" (url.Path (http.URL r) +:+ keySuffix (url.RawQuery (http.URL r))).
Proof.
  unfold spec_cacheKey, keySuffix.
  destruct (url.RawQuery (http.URL r)); [by rewrite append_nil_r | done].
Qed.

(** Every key starts with the method and a colon. *)
Lemma generateCacheKey_shape r :
  generateCacheKey r =
  http.Method r +:+
    String ":" (url.Path (http.URL r) +:+ keySuffix (url.RawQuery (http.URL r))).
Proof. rewrite generateCacheKey_spec. apply spec_cacheKey_shape. Qed.

(** With separator-free parts, the key gives back method, path and query
    map. *)
Lemma generateCacheKey_inj r1 r2 :
  separatorFree r1 = true -> separatorFree r2 = true ->
  generateCacheKey r1 = generateCacheKey r2 ->
  http.Method r1 = http.Method r2 /\
  url.Path (http.URL r1) = url.Path (http.URL r2) /\
  url.Query (http.URL r1) = url.Query (http.URL r2).
Proof.
  intros (Hm1 & Hp1 & Hq1)%separatorFree_parts (Hm2 & Hp2 & Hq2)%separatorFree_parts.
  rewrite !generateCacheKey_shape. intros Heq.
  apply cut_unique in Heq as [Hm Heq]; [|done..]. split; [done|].
  unfold url.Query, keySuffix in *.
  destruct (url.RawQuery (http.URL r1)) as [|kv1 q1] eqn:E1,
           (url.RawQuery (http.URL r2)) as [|kv2 q2] eqn:E2.
  - rewrite !append_nil_r in Heq. done.
  - rewrite append_nil_r in Heq. by apply cut_absent in Heq.
  - rewrite append_nil_r in Heq. symmetry in Heq. by apply cut_absent in Heq.
  - apply cut_unique in Heq as [Hp Heq]; [|done..]. split; [done|].
    by apply grouped_ParseQuery, joined_pairs_inj.
Qed.

(** With the same query map, method and path alone keep keys apart. *)
Lemma generateCacheKey_inj_same_query r1 r2 :
  occurs ":" (http.Method r1) = false -> occurs ":" (http.Method r2) = false ->
  url.Query (http.URL r1) = url.Query (http.URL r2) ->
  generateCacheKey r1 = generateCacheKey r2 ->
  http.Method r1 = http.Method r2 /\
  url.Path (http.URL r1) = url.Path (http.URL r2).
Proof.
  intros Hm1 Hm2 Hq. unfold generateCacheKey, cacheKeyFrom. rewrite Hq.
  set (params := url.Query (http.URL r2)).
  set (j := strings_Join _ _). clearbody j.
  change (?m +:+ ":" +:+ ?rest) with (m +:+ String ":" rest).
  case_decide; intros Heq.
  - by apply cut_unique in Heq.
  - apply cut_unique in Heq as [? Heq]; [|done..]. split; [done|].
    by apply append_cancel_r in Heq.
Qed.

(** A method token holds no colon. *)
Lemma token_no_colon (m : string) :
  textproto.allValid m = true -> occurs ":" m = false.
Proof.
  induction m as [|a m IH]; [done|]. simpl.
  intros [Ha Hm]%andb_true_iff. rewrite (IH Hm), orb_false_r.
  destruct (Ascii.eqb_spec a ":") as [->|]; [|done]. by vm_compute in Ha.
Qed.

(** The key of a request whose method is not GET is the key of no GET
    request. *)
Lemma generateCacheKey_method_apart r r' :
  http.Method r <> http.MethodGet ->
  occurs ":" (http.Method r) = false ->
  http.Method r' = http.MethodGet ->
  generateCacheKey r <> generateCacheKey r'.
Proof.
  intros Hm Hcolon Hm'. rewrite !generateCacheKey_shape. intros Heq.
  apply cut_unique in Heq as [Heq _]; [congruence | done |].
  by rewrite Hm'.
Qed.

End injectivity.

(** C4, as stated, fails: a parameter value holding an ampersand and an
    equals sign (sent as [?a=1%26b%3D2]) yields the key of the
    two-parameter query [?a=1&b=2], although the two query maps differ. *)
Lemma generateCacheKey_collision :
  url.Query (http.URL (request "GET" "/items" [("a", "1"); ("b", "2")])) <>
  url.Query (http.URL (request "GET" "/items" [("a", "1&b=2")])) /\
  generateCacheKey (request "GET" "/items" [("a", "1"); ("b", "2")]) =
  generateCacheKey (request "GET" "/items" [("a", "1&b=2")]).
Proof.
  split; [|vm_compute; reflexivity].
  intros Heq. apply (f_equal (fun m : url.Values => m !! "b")) in Heq.
  vm_compute in Heq. discriminate.
Qed.

(** The same happens between path and query: the path [/a?x=1] (sent as
    [/a%3Fx=1]) without parameters and the path [/a] with [x=1]. *)
Example key_collision_between_path_and_query :
  generateCacheKey (request "GET" "/a?x=1" []) =
  generateCacheKey (request "GET" "/a" [("x", "1")]).
Proof. vm_compute. reflexivity. Qed.

(** C4, amended: requests that differ in method, path or query map have
    different keys when either no separator character occurs in a place
    where it is taken for a separator (colon in a method, question mark in
    a path, equals sign or ampersand in a name, ampersand in a value), or
    the two query maps are equal and no method holds a colon. *)
Theorem generateCacheKey_distinct (r1 r2 : http.Request) :
  (http.Method r1 <> http.Method r2 \/
   url.Path (http.URL r1) <> url.Path (http.URL r2) \/
   url.Query (http.URL r1) <> url.Query (http.URL r2)) ->
  (separatorFree r1 = true /\ separatorFree r2 = true) \/
  (occurs ":" (http.Method r1) = false /\ occurs ":" (http.Method r2) = false /\
   url.Query (http.URL r1) = url.Query (http.URL r2)) ->
  generateCacheKey r1 <> generateCacheKey r2.
Proof.
  intros Hdiff [[H1 H2]|(H1 & H2 & Hq)] Heq.
  - destruct (generateCacheKey_inj r1 r2 H1 H2 Heq) as (Hm & Hp & Hq). tauto.
  - destruct (generateCacheKey_inj_same_query r1 r2 H1 H2 Hq Heq) as (Hm & Hp). tauto.
Qed.

Lemma generateCacheKey_distinct_witness :
  generateCacheKey (request "GET" "/items" [("a", "1"); ("b", "2")]) <>
  generateCacheKey (request "GET" "/items" [("a", "1"); ("b", "3")]).
Proof.
  apply generateCacheKey_distinct.
  - right. right. intros Heq.
    apply (f_equal (fun m : url.Values => m !! "b")) in Heq.
    vm_compute in Heq. discriminate.
  - left. split; reflexivity.
Defined.

(** * Header maps *)

Section headers.

Implicit Types (h dst src : http.Header) (k : string) (vv vs : list string)
  (l : list (string * list string)) (o : option (list string)).

Lemma extend_nil o : extend o [] = o.
Proof. reflexivity. Qed.

Lemma extend_extend o vs1 vs2 : extend (extend o vs1) vs2 = extend o (vs1 ++ vs2).
Proof.
  destruct vs1 as [|v1 vs1]; [done|]. destruct vs2 as [|v2 vs2].
  - by rewrite app_nil_r.
  - simpl. by rewrite <- app_assoc.
Qed.

Lemma default_extend o vs : default [] (extend o vs) = default [] o ++ vs.
Proof. destruct vs; simpl; [by rewrite app_nil_r | done]. Qed.

Lemma Add_lookup h k v k' :
  http.Add h k v !! k' =
    if decide (http.CanonicalHeaderKey k = k') then extend (h !! k') [v] else h !! k'.
Proof.
  unfold http.Add. destruct (decide (http.CanonicalHeaderKey k = k')) as [<-|Hne].
  - by rewrite lookup_insert_eq, lookup_total_alt.
  - by rewrite lookup_insert_ne.
Qed.

Lemma addAll_lookup h k vv k' :
  httputil.addAll h k vv !! k' =
    if decide (http.CanonicalHeaderKey k = k') then extend (h !! k') vv else h !! k'.
Proof.
  unfold httputil.addAll. revert h.
  induction vv as [|v vv IH]; intros h; simpl.
  - by destruct (decide _).
  - rewrite IH, Add_lookup. destruct (decide _); [|done].
    apply (extend_extend _ [v] vv).
Qed.

Lemma entry_values_cons k k' vv l :
  entry_values k' ((k, vv) :: l) =
    if decide (k = k') then vv ++ entry_values k' l else entry_values k' l.
Proof.
  unfold entry_values. rewrite filter_cons. simpl.
  by destruct (decide (k = k')).
Qed.

Lemma addEntries_lookup skip h l k' :
  Forall (fun kvv => http.CanonicalHeaderKey kvv.1 = kvv.1) l ->
  addEntries skip h l !! k' =
    extend (h !! k') (if skip k' then [] else entry_values k' l).
Proof.
  intros Hl. revert h. induction Hl as [|[k vv] l Hk Hl IH]; intros h.
  - simpl. by destruct (skip k').
  - unfold addEntries in *. simpl in Hk |- *. rewrite IH, entry_values_cons.
    destruct (decide (k = k')) as [->|Hne].
    + destruct (skip k'); [done|]. rewrite addAll_lookup, Hk.
      rewrite decide_True by done. apply extend_extend.
    + destruct (skip k) eqn:Hs; [done|].
      rewrite addAll_lookup, Hk. by rewrite decide_False.
Qed.

Lemma entry_values_absent k l : k ∉ l.*1 -> entry_values k l = [].
Proof.
  induction l as [|[k' vv] l IH]; [done|].
  rewrite fmap_cons, not_elem_of_cons, entry_values_cons. simpl.
  intros [Hne Hin]. rewrite decide_False by done. by apply IH.
Qed.

Lemma entry_values_present k vv l :
  NoDup l.*1 -> (k, vv) ∈ l -> entry_values k l = vv.
Proof.
  induction l as [|[k' vv'] l IH]; intros Hnd Hin.
  - by apply elem_of_nil in Hin.
  - rewrite fmap_cons in Hnd. apply NoDup_cons in Hnd as [Hk' Hnd].
    rewrite entry_values_cons. apply elem_of_cons in Hin as [[= <- <-]|Hin].
    + rewrite decide_True by done. simpl in Hk'.
      by rewrite entry_values_absent, app_nil_r.
    + rewrite decide_False; [by apply IH|].
      intros ->. apply Hk'. simpl. by apply (list_elem_of_fmap_2 fst _ (k, vv)).
Qed.

(** Whatever the order of the iteration, the entries of a map hold for
    each name the values the map holds for it. *)
Lemma entry_values_map_to_list (m : http.Header) k :
  entry_values k (map_to_list m) = m !!! k.
Proof.
  rewrite lookup_total_alt. destruct (m !! k) as [vv|] eqn:Hk; simpl.
  - apply entry_values_present; [apply NoDup_fst_map_to_list|].
    by apply elem_of_map_to_list.
  - apply entry_values_absent. intros Hin.
    apply (elem_of_range_keys m k) in Hin as [? ?]. congruence.
Qed.

Lemma canonicalKeys_entries h :
  canonicalKeys h = true ->
  Forall (fun kvv => http.CanonicalHeaderKey kvv.1 = kvv.1) (map_to_list h).
Proof.
  unfold canonicalKeys, range_keys. rewrite forallb_forall, Forall_forall.
  intros Hall [k vv] Hin. simpl. apply String.eqb_eq, Hall, list_elem_of_In.
  by apply (list_elem_of_fmap_2 fst _ (k, vv)).
Qed.

Lemma canonicalKeys_lookup h k vv :
  canonicalKeys h = true -> h !! k = Some vv -> http.CanonicalHeaderKey k = k.
Proof.
  intros Hc%canonicalKeys_entries Hk. rewrite Forall_forall in Hc.
  by apply (Hc (k, vv)), elem_of_map_to_list.
Qed.

Lemma entry_values_perm k l1 l2 :
  NoDup l1.*1 -> l1 ≡ₚ l2 -> entry_values k l1 = entry_values k l2.
Proof.
  intros Hnd Hp.
  assert (NoDup l2.*1) as Hnd2 by (by rewrite <- Hp).
  destruct (decide (k ∈ l1.*1)) as [Hin|Hin].
  - apply list_elem_of_fmap in Hin as ([k' vv] & -> & Hin). simpl.
    rewrite (entry_values_present k' vv l1) by done.
    symmetry. apply entry_values_present; [done | by rewrite <- Hp].
  - rewrite (entry_values_absent k l1) by done.
    symmetry. apply entry_values_absent. by rewrite <- Hp.
Qed.

(** The header loops give the same map whatever order the iteration over
    the source map takes. *)
Lemma addEntries_order_irrelevant skip h (m : http.Header) l :
  canonicalKeys m = true -> l ≡ₚ map_to_list m ->
  addEntries skip h l = addEntries skip h (map_to_list m).
Proof.
  intros Hc Hp. apply map_eq. intros k.
  rewrite !addEntries_lookup.
  - destruct (skip k); [done|]. f_equal. symmetry.
    apply entry_values_perm; [apply NoDup_fst_map_to_list | done].
  - by apply canonicalKeys_entries.
  - rewrite Hp. by apply canonicalKeys_entries.
Qed.


Lemma copyCached_addEntries h cached :
  copyCached h cached = addEntries hopByHop h (map_to_list cached).
Proof.
  unfold copyCached, addEntries. revert h.
  induction (map_to_list cached) as [|[k vv] l IH]; intros h; [done|].
  simpl. rewrite IH. f_equal. unfold hopByHop.
  case_bool_decide; case_decide; done || tauto.
Qed.

Lemma copyCached_lookup h cached k :
  canonicalKeys cached = true ->
  copyCached h cached !! k =
    extend (h !! k) (if hopByHop k then [] else cached !!! k).
Proof.
  intros Hc. rewrite copyCached_addEntries, <- entry_values_map_to_list.
  by apply addEntries_lookup, canonicalKeys_entries.
Qed.

End headers.

(** * The forwarding pipeline *)

Section pipeline.

Variable originURL : url.URL.

Implicit Types (r : http.Request) (w : World) (env : Env)
  (rw : http.ResponseWriter) (code : Z) (hdr : http.Header)
  (body : http.ReadCloser).

(** The director leaves method, path and query alone, and so the key. *)
Lemma generateCacheKey_Director r :
  generateCacheKey (Director originURL r) = generateCacheKey r.
Proof. reflexivity. Qed.

Lemma in2xx_true code :
  200 <= code < 300 -> (200 <=? code) && (code <? 300) = true.
Proof. intros [? ?]. apply andb_true_iff. split; [by apply Z.leb_le | by apply Z.ltb_lt]. Qed.

Lemma in2xx_false code :
  ~ 200 <= code < 300 -> (200 <=? code) && (code <? 300) = false.
Proof.
  intros Hn. apply not_true_is_false. rewrite andb_true_iff, Z.leb_le, Z.ltb_lt.
  intros [? ?]. apply Hn. lia.
Qed.

Ltac run_hook :=
  unfold ModifyResponse, io_ReadAll, time_Now, cache_put, mbind, mret,
    M_bind, M_ret; simpl.

(** The response hook, case by case. *)
Lemma ModifyResponse_body_error (resp : http.Response) env w e :
  http.failure (http.Body resp) = Some e ->
  ModifyResponse resp env w =
    (inl ("failed to read response body for caching: " +:+ e), w).
Proof. intros Hb. run_hook. by rewrite Hb. Qed.

Lemma ModifyResponse_stored (resp : http.Response) env w :
  http.failure (http.Body resp) = None ->
  200 <= http.StatusCode resp < 300 ->
  ModifyResponse resp env w =
    (inr (buffered resp),
     stored w (generateCacheKey (http.Request_ resp))
       (recordOf (clock env) (http.StatusCode resp) (http.RespHeader resp)
          (http.data (http.Body resp)))).
Proof. intros Hb Hc. run_hook. by rewrite Hb, (in2xx_true _ Hc). Qed.

Lemma ModifyResponse_not_stored (resp : http.Response) env w :
  http.failure (http.Body resp) = None ->
  ~ 200 <= http.StatusCode resp < 300 ->
  ModifyResponse resp env w = (inr (buffered resp), w).
Proof. intros Hb Hc. run_hook. by rewrite Hb, (in2xx_false _ Hc). Qed.

Ltac run_proxy Ho :=
  unfold httputil.ServeHTTP, transport_RoundTrip, mbind, mret, M_bind, M_ret;
  simpl; rewrite Ho; simpl.

(** The reverse proxy with the two hooks installed, case by case. *)
Lemma forward_transport_error rw r env w e :
  origin env (Director originURL r) = inl e ->
  httputil.ServeHTTP (proxy originURL) rw r env w =
    (httputil.defaultErrorHandler rw, sentTo w (Director originURL r)).
Proof. intros Ho. by run_proxy Ho. Qed.

Lemma forward_body_error rw r env w code hdr body e :
  origin env (Director originURL r) = inr (code, hdr, body) ->
  http.failure body = Some e ->
  httputil.ServeHTTP (proxy originURL) rw r env w =
    (httputil.defaultErrorHandler rw, sentTo w (Director originURL r)).
Proof.
  intros Ho Hb. run_proxy Ho.
  by rewrite (ModifyResponse_body_error _ _ _ e).
Qed.

Lemma forward_stored rw r env w code hdr body :
  origin env (Director originURL r) = inr (code, hdr, body) ->
  http.failure body = None ->
  200 <= code < 300 ->
  httputil.ServeHTTP (proxy originURL) rw r env w =
    (relay rw code hdr (http.data body),
     stored (sentTo w (Director originURL r)) (generateCacheKey r)
       (recordOf (clock env) code hdr (http.data body))).
Proof.
  intros Ho Hb Hc. run_proxy Ho. by rewrite ModifyResponse_stored.
Qed.

Lemma forward_not_stored rw r env w code hdr body :
  origin env (Director originURL r) = inr (code, hdr, body) ->
  http.failure body = None ->
  ~ 200 <= code < 300 ->
  httputil.ServeHTTP (proxy originURL) rw r env w =
    (relay rw code hdr (http.data body), sentTo w (Director originURL r)).
Proof.
  intros Ho Hb Hc. run_proxy Ho. by rewrite ModifyResponse_not_stored.
Qed.

(** The three branches of the handler. *)
Lemma serve_bypass env r w :
  http.Method r <> http.MethodGet ->
  serve originURL env r w =
    httputil.ServeHTTP (proxy originURL) (marked "BYPASS") r env w.
Proof. intros Hm. unfold serve, createProxyHandler. by rewrite decide_True. Qed.

Lemma serve_miss env r w :
  http.Method r = http.MethodGet ->
  cache w !! generateCacheKey r = None ->
  serve originURL env r w =
    httputil.ServeHTTP (proxy originURL) (marked "MISS") r env w.
Proof.
  intros Hm Hk. unfold serve, createProxyHandler.
  rewrite decide_False by (intros ?; done).
  unfold mbind, M_bind, cache_get. by rewrite Hk.
Qed.

Lemma serve_hit env r w c :
  http.Method r = http.MethodGet ->
  cache w !! generateCacheKey r = Some c ->
  serve originURL env r w = (hitResponse c, w).
Proof.
  intros Hm Hk. unfold serve, createProxyHandler.
  rewrite decide_False by (intros ?; done).
  unfold mbind, M_bind, cache_get. by rewrite Hk.
Qed.

End pipeline.

(** * Responses *)

Section responses.

Implicit Types (rw : http.ResponseWriter) (c : CachedResponse) (m k : string)
  (hdr h : http.Header) (code : Z) (body : bytes).

Lemma canonical_X_Cache : http.CanonicalHeaderKey "X-Cache" = "X-Cache".
Proof. reflexivity. Qed.

Lemma canonical_Content_Length :
  http.CanonicalHeaderKey "Content-Length" = "Content-Length".
Proof. reflexivity. Qed.

Lemma marked_header m : http.wHeader (marked m) = {["X-Cache" := [m]]}.
Proof. reflexivity. Qed.

(** A loop of [Add] calls only ever appends to a header. *)
Lemma addEntries_extends skip h (l : list (string * list string)) k :
  exists vs, addEntries skip h l !! k = extend (h !! k) vs.
Proof.
  revert h. induction l as [|[k' vv] l IH]; intros h.
  - by exists [].
  - unfold addEntries in *. simpl.
    destruct (IH (if skip k' then h else httputil.addAll h k' vv)) as [vs ->].
    destruct (skip k'); [by exists vs|]. rewrite addAll_lookup.
    destruct (decide _); [|by exists vs].
    exists (vv ++ vs). apply extend_extend.
Qed.

Lemma extend_head (v : string) vs0 vs : exists vs', extend (Some (v :: vs0)) vs = Some (v :: vs').
Proof. destruct vs; simpl; eauto. Qed.

Lemma marker_of_lookup rw m vs :
  clientHeader rw !! "X-Cache" = Some (m :: vs) -> marker rw = m.
Proof.
  intros Hk. unfold marker, http.Get, http.Values.
  by rewrite canonical_X_Cache, lookup_total_alt, Hk.
Qed.

(** What the client receives from a relayed response. *)
Lemma relay_status m code hdr body :
  clientStatus (relay (marked m) code hdr body) = Some code.
Proof. reflexivity. Qed.

Lemma relay_body m code hdr body :
  clientBody (relay (marked m) code hdr body) = body.
Proof. reflexivity. Qed.

Lemma relay_header m code hdr body :
  clientHeader (relay (marked m) code hdr body) =
    httputil.copyHeader {["X-Cache" := [m]]} hdr.
Proof. reflexivity. Qed.

Lemma relay_marker m code hdr body : marker (relay (marked m) code hdr body) = m.
Proof.
  destruct (addEntries_extends (fun _ => false) {["X-Cache" := [m]]}
              (map_to_list hdr) "X-Cache") as [vs Hvs].
  rewrite lookup_singleton_eq in Hvs.
  destruct (extend_head m [] vs) as [vs' Hvs']. rewrite Hvs' in Hvs.
  eapply marker_of_lookup. rewrite relay_header. exact Hvs.
Qed.


Lemma error_body m : clientBody (httputil.defaultErrorHandler (marked m)) = [].
Proof. reflexivity. Qed.

Lemma error_marker m : marker (httputil.defaultErrorHandler (marked m)) = m.
Proof. reflexivity. Qed.

(** What the client receives on a hit. *)
Lemma hit_status c : clientStatus (hitResponse c) = Some (StatusCode c).
Proof. reflexivity. Qed.

Lemma hit_body c : clientBody (hitResponse c) = Response c.
Proof. reflexivity. Qed.

Lemma hit_header c :
  clientHeader (hitResponse c) =
    <["Content-Length" := [Sprintf_d (length (Response c))]]>
      (copyCached {["X-Cache" := ["HIT"]]} (Headers c)).
Proof. reflexivity. Qed.

Lemma hit_marker c : marker (hitResponse c) = "HIT".
Proof.
  destruct (addEntries_extends hopByHop {["X-Cache" := ["HIT"]]}
              (map_to_list (Headers c)) "X-Cache") as [vs Hvs].
  rewrite lookup_singleton_eq, <- copyCached_addEntries in Hvs.
  destruct (extend_head "HIT" [] vs) as [vs' Hvs']. rewrite Hvs' in Hvs.
  eapply marker_of_lookup. rewrite hit_header, lookup_insert_ne by done. exact Hvs.
Qed.

(** The header set of a hit, name by name. *)
Lemma hit_header_lookup c k :
  canonicalKeys (Headers c) = true ->
  clientHeader (hitResponse c) !! k =
    if decide (k = "Content-Length") then Some [Sprintf_d (length (Response c))]
    else if decide (k = "X-Cache") then Some ("HIT" :: Headers c !!! "X-Cache")
    else if hopByHop k then None
    else extend None (Headers c !!! k).
Proof.
  intros Hc. rewrite hit_header.
  destruct (decide (k = "Content-Length")) as [->|Hcl].
  { by rewrite lookup_insert_eq. }
  rewrite lookup_insert_ne by done. rewrite copyCached_lookup by done.
  destruct (decide (k = "X-Cache")) as [->|Hx].
  { rewrite lookup_singleton_eq. by destruct (Headers c !!! "X-Cache"). }
  rewrite lookup_singleton_ne by done. by destruct (hopByHop k).
Qed.

Lemma hit_header_other c k :
  canonicalKeys (Headers c) = true ->
  k <> "Connection" -> k <> "Transfer-Encoding" ->
  k <> "Content-Length" -> k <> "X-Cache" ->
  clientHeader (hitResponse c) !!! k = Headers c !!! k.
Proof.
  intros Hc H1 H2 H3 H4. rewrite lookup_total_alt, hit_header_lookup by done.
  rewrite !decide_False by done.
  assert (hopByHop k = false) as ->.
  { unfold hopByHop. apply bool_decide_eq_false. tauto. }
  by rewrite default_extend.
Qed.

End responses.

(** * One exchange and runs of exchanges *)

Section exchanges.

Variable originURL : url.URL.

Implicit Types (r : http.Request) (w : World) (env : Env)
  (rw : http.ResponseWriter) (c : CachedResponse).

Lemma forward_outcome rw r env w :
  Forwarded originURL r env rw w
    (httputil.ServeHTTP (proxy originURL) rw r env w).
Proof.
  destruct (origin env (Director originURL r)) as [e|[[code hdr] body]] eqn:Ho.
  { rewrite (forward_transport_error _ _ _ _ _ e Ho). constructor. eauto. }
  destruct (http.failure body) as [e|] eqn:Hb.
  { rewrite (forward_body_error _ _ _ _ _ _ _ _ e Ho Hb). constructor.
    right. by exists code, hdr, body, e. }
  destruct (decide (200 <= code < 300)) as [Hc|Hc].
  - rewrite (forward_stored _ _ _ _ _ _ _ _ Ho Hb Hc). by econstructor.
  - rewrite (forward_not_stored _ _ _ _ _ _ _ _ Ho Hb Hc). by econstructor.
Qed.

(** The response of the reverse proxy does not depend on the state. *)
Lemma forward_response_state rw r env w1 w2 :
  (httputil.ServeHTTP (proxy originURL) rw r env w1).1 =
  (httputil.ServeHTTP (proxy originURL) rw r env w2).1.
Proof.
  destruct (origin env (Director originURL r)) as [e|[[code hdr] body]] eqn:Ho.
  { by rewrite !(forward_transport_error _ _ _ _ _ e Ho). }
  destruct (http.failure body) as [e|] eqn:Hb.
  { by rewrite !(forward_body_error _ _ _ _ _ _ _ _ e Ho Hb). }
  destruct (decide (200 <= code < 300)) as [Hc|Hc].
  - by rewrite !(forward_stored _ _ _ _ _ _ _ _ Ho Hb Hc).
  - by rewrite !(forward_not_stored _ _ _ _ _ _ _ _ Ho Hb Hc).
Qed.

(** The handler either answers from the store, leaving the state alone,
    or forwards with the marker set to [MISS] or [BYPASS]. *)
Lemma serve_outcome env r w :
  (exists c, http.Method r = http.MethodGet /\
             cache w !! generateCacheKey r = Some c /\
             serve originURL env r w = (hitResponse c, w)) \/
  (exists m, (m = "BYPASS" /\ http.Method r <> http.MethodGet \/
              m = "MISS" /\ http.Method r = http.MethodGet /\
                cache w !! generateCacheKey r = None) /\
             serve originURL env r w =
               httputil.ServeHTTP (proxy originURL) (marked m) r env w).
Proof.
  destruct (decide (http.Method r = http.MethodGet)) as [Hm|Hm].
  - destruct (cache w !! generateCacheKey r) as [c|] eqn:Hk.
    + left. exists c. by rewrite (serve_hit _ _ _ _ c).
    + right. exists "MISS". by rewrite serve_miss; auto.
  - right. exists "BYPASS". by rewrite serve_bypass; auto.
Qed.

(** The response to a request depends on the store through the entry
    under the request's own key only, and only when the method is GET. *)
Lemma serve_response_lookup env r w1 w2 :
  (http.Method r = http.MethodGet ->
   cache w1 !! generateCacheKey r = cache w2 !! generateCacheKey r) ->
  (serve originURL env r w1).1 = (serve originURL env r w2).1.
Proof.
  intros Hk.
  destruct (serve_outcome env r w1) as [(c & Hm & Hc & ->)|(m & Hcase & ->)].
  - rewrite (Hk Hm) in Hc. by rewrite (serve_hit _ _ _ _ c).
  - destruct Hcase as [[-> Hm]|(-> & Hm & Hnone)].
    + rewrite serve_bypass by done. apply forward_response_state.
    + rewrite (Hk Hm) in Hnone. rewrite serve_miss by done.
      apply forward_response_state.
Qed.

(** An exchange leaves the store as it is or puts one record, built from
    a 2xx answer whose body was read, under the key of the request. *)
Lemma serve_cache env r w :
  cache (serve originURL env r w).2 = cache w \/
  exists code hdr body,
    origin env (Director originURL r) = inr (code, hdr, body) /\
    http.failure body = None /\ 200 <= code < 300 /\
    cache (serve originURL env r w).2 =
      <[generateCacheKey r := recordOf (clock env) code hdr (http.data body)]>
        (cache w).
Proof.
  destruct (serve_outcome env r w) as [(c & _ & _ & ->)|(m & _ & ->)]; [by left|].
  destruct (forward_outcome (marked m) r env w)
    as [_|code hdr body Ho Hb Hc|code hdr body Ho Hb Hc]; [by left| |by left].
  right. by exists code, hdr, body.
Qed.

Lemma serveAll_cons env r xs w :
  serveAll originURL ((env, r) :: xs) w =
    ((serve originURL env r w).1 :: (serveAll originURL xs (serve originURL env r w).2).1,
     (serveAll originURL xs (serve originURL env r w).2).2).
Proof.
  simpl. destruct (serve originURL env r w) as [rw w1]. simpl.
  by destruct (serveAll originURL xs w1).
Qed.

(** The store holds 2xx records only, and this is kept by every
    exchange. *)
Lemma all2xx_initial : all2xx initial.
Proof. apply map_Forall_empty. Qed.

Lemma all2xx_serve env r w : all2xx w -> all2xx (serve originURL env r w).2.
Proof.
  unfold all2xx. intros Hw.
  destruct (serve_cache env r w) as [->|(code & hdr & body & _ & _ & Hc & ->)];
    [done|].
  by apply map_Forall_insert_2.
Qed.

Lemma all2xx_serveAll xs w : all2xx w -> all2xx (serveAll originURL xs w).2.
Proof.
  revert w. induction xs as [|[env r] xs IH]; intros w Hw; [done|].
  rewrite serveAll_cons. simpl. by apply IH, all2xx_serve.
Qed.

(** The marker set before forwarding reaches the client whatever the
    origin does. *)
Lemma forward_marker m r env w :
  marker (httputil.ServeHTTP (proxy originURL) (marked m) r env w).1 = m.
Proof.
  destruct (forward_outcome (marked m) r env w); simpl;
    [apply error_marker | apply relay_marker..].
Qed.

(** Forwarding sends exactly one request, the director's rewrite of the
    client's. *)
Lemma forward_upstream rw r env w :
  upstream (httputil.ServeHTTP (proxy originURL) rw r env w).2 =
    upstream w ++ [Director originURL r].
Proof. by destruct (forward_outcome rw r env w). Qed.

(** While no request with a given key gets a 2xx answer, the key stays
    out of the store and every GET with that key is a [MISS], whatever
    other requests are served in between. *)
Lemma unsuccessful_serve key env r w :
  cache w !! key = None ->
  unsuccessfulFor originURL key (env, r) ->
  cache (serve originURL env r w).2 !! key = None /\
  missFor key (env, r) (serve originURL env r w).1.
Proof.
  intros Hk Hun. split.
  - destruct (serve_cache env r w) as [->|(code & hdr & body & Ho & _ & Hc & ->)];
      [done|].
    destruct (decide (generateCacheKey r = key)) as [Heq|Hne].
    + by destruct (Hun Heq _ _ _ Ho).
    + by rewrite lookup_insert_ne.
  - intros Hm Heq. simpl in *. subst key.
    rewrite serve_miss by done. apply forward_marker.
Qed.

Lemma unsuccessful_serveAll key xs w :
  cache w !! key = None ->
  Forall (unsuccessfulFor originURL key) xs ->
  cache (serveAll originURL xs w).2 !! key = None /\
  Forall2 (missFor key) xs (serveAll originURL xs w).1.
Proof.
  intros Hk Hxs. revert w Hk.
  induction Hxs as [|[env r] xs Hx Hxs IH]; intros w Hk.
  - by split; [|constructor].
  - rewrite serveAll_cons. cbn [fst snd].
    destruct (unsuccessful_serve key env r w Hk Hx) as [Hk' Hmiss].
    destruct (IH _ Hk') as [Hend Hrest].
    split; [done | by constructor].
Qed.

(** Records are built from answers of the origin, so their header keys
    are canonical when those of the answers are. *)
Lemma canonicalStore_serve env r w :
  canonicalEnv env -> canonicalStore w ->
  canonicalStore (serve originURL env r w).2.
Proof.
  unfold canonicalStore. intros Henv Hw.
  destruct (serve_cache env r w) as [->|(code & hdr & body & Ho & _ & _ & ->)];
    [done|].
  apply map_Forall_insert_2; [|done]. simpl. by eapply Henv.
Qed.

Lemma canonicalStore_serveAll xs w :
  Forall (fun x => canonicalEnv x.1) xs -> canonicalStore w ->
  canonicalStore (serveAll originURL xs w).2.
Proof.
  intros Hxs. revert w.
  induction Hxs as [|[env r] xs Henv Hxs IH]; intros w Hw; [done|].
  rewrite serveAll_cons. simpl. by apply IH, canonicalStore_serve.
Qed.

(** What holds of every request whose method is not GET: it goes to the
    origin, the response is marked [BYPASS], and the store is not
    consulted. *)
Lemma bypass_forwards env r w :
  http.Method r <> http.MethodGet ->
  upstream (serve originURL env r w).2 = upstream w ++ [Director originURL r] /\
  marker (serve originURL env r w).1 = "BYPASS".
Proof.
  intros Hm. rewrite serve_bypass by done.
  split; [apply forward_upstream | apply forward_marker].
Qed.

(** But a 2xx answer to such a request is put into the store all the
    same: the response hook does not look at the method. *)
Lemma bypass_stores env r w code hdr body :
  http.Method r <> http.MethodGet ->
  origin env (Director originURL r) = inr (code, hdr, body) ->
  http.failure body = None ->
  200 <= code < 300 ->
  cache (serve originURL env r w).2 !! generateCacheKey r =
    Some (recordOf (clock env) code hdr (http.data body)).
Proof.
  intros Hm Ho Hb Hc. rewrite serve_bypass by done.
  rewrite (forward_stored _ _ _ _ _ _ _ _ Ho Hb Hc). apply lookup_insert_eq.
Qed.

End exchanges.

(** * The handler *)

(** C1, at a failing input: a POST whose origin answer is 201 is
    forwarded and marked [BYPASS], and yet its response is put into the
    store, under the key [POST:/orders]. *)
Theorem bypass_response_is_stored :
  marker (serve originExample (answering (inr (201, jsonHeader, stream "created")) 5)
            (request "POST" "/orders" []) initial).1 = "BYPASS" /\
  cache (serve originExample (answering (inr (201, jsonHeader, stream "created")) 5)
           (request "POST" "/orders" []) initial).2 !! "POST:/orders" =
    Some (recordOf 5 201 jsonHeader (list_byte_of_string "created")).
Proof. split; vm_compute; reflexivity. Qed.

(** C5: the response hook stores a response that was read and whose
    status lies in [200,300) and stores nothing for any other status; from
    process start on, whatever exchanges take place, every record in the
    store has a 2xx status; and as long as the requests with a given key
    never get a 2xx answer, the key stays out of the store and every GET
    with that key is a [MISS], however often it is repeated and whatever
    is served in between. *)
Theorem only_2xx_is_stored (originURL : url.URL) :
  (forall (resp : http.Response) env w,
      http.failure (http.Body resp) = None ->
      200 <= http.StatusCode resp < 300 ->
      cache (ModifyResponse resp env w).2 !! generateCacheKey (http.Request_ resp) =
        Some (recordOf (clock env) (http.StatusCode resp) (http.RespHeader resp)
                (http.data (http.Body resp)))) /\
  (forall (resp : http.Response) env w,
      ~ 200 <= http.StatusCode resp < 300 ->
      (ModifyResponse resp env w).2 = w) /\
  (forall xs key c,
      cache (serveAll originURL xs initial).2 !! key = Some c ->
      200 <= StatusCode c < 300) /\
  (forall xs w key,
      cache w !! key = None ->
      Forall (unsuccessfulFor originURL key) xs ->
      cache (serveAll originURL xs w).2 !! key = None /\
      Forall2 (missFor key) xs (serveAll originURL xs w).1).
Proof.
  split; [|split; [|split]].
  - intros resp env w Hb Hc. rewrite ModifyResponse_stored by done.
    apply lookup_insert_eq.
  - intros resp env w Hc.
    destruct (http.failure (http.Body resp)) as [e|] eqn:Hb.
    + by rewrite (ModifyResponse_body_error _ _ _ e).
    + by rewrite ModifyResponse_not_stored.
  - intros xs key c Hk.
    by apply (all2xx_serveAll originURL xs initial all2xx_initial key c).
  - intros xs w key. apply unsuccessful_serveAll.
Qed.

Lemma only_2xx_is_stored_witness :
  Forall2 (missFor "GET:/missing")
    [(answering (inr (404, jsonHeader, stream "not found")) 1,
      request "GET" "/missing" []);
     (answering (inr (200, jsonHeader, stream "user one")) 2,
      request "GET" "/users/1" []);
     (answering (inr (503, jsonHeader, stream "unavailable")) 3,
      request "GET" "/missing" [])]
    (serveAll originExample
       [(answering (inr (404, jsonHeader, stream "not found")) 1,
         request "GET" "/missing" []);
        (answering (inr (200, jsonHeader, stream "user one")) 2,
         request "GET" "/users/1" []);
        (answering (inr (503, jsonHeader, stream "unavailable")) 3,
         request "GET" "/missing" [])]
       initial).1.
Proof.
  apply (proj2 (proj2 (proj2 (only_2xx_is_stored originExample)))).
  - reflexivity.
  - repeat constructor; unfold unsuccessfulFor; simpl.
    + intros _ code hdr body [= <- _ _]; lia.
    + discriminate.
    + intros _ code hdr body [= <- _ _]; lia.
Defined.

(** C6: a GET whose key is in the store is answered from the record
    found there.  The state is left as it was, so that no request goes to
    the origin; the response carries the marker [HIT], the status code and
    the body of the record, a [Content-Length] that is the length of that
    body, no [Connection] and no [Transfer-Encoding], and under every
    other name the values the record holds, in their order ([X-Cache]
    holding them after the marker). *)
Theorem hit_is_served_from_store (originURL : url.URL) env r w c :
  http.Method r = http.MethodGet ->
  cache w !! generateCacheKey r = Some c ->
  canonicalKeys (Headers c) = true ->
  cache (serve originURL env r w).2 = cache w /\
  upstream (serve originURL env r w).2 = upstream w /\
  marker (serve originURL env r w).1 = "HIT" /\
  clientStatus (serve originURL env r w).1 = Some (StatusCode c) /\
  clientBody (serve originURL env r w).1 = Response c /\
  clientHeader (serve originURL env r w).1 !! "Content-Length" =
    Some [Sprintf_d (length (Response c))] /\
  clientHeader (serve originURL env r w).1 !! "X-Cache" =
    Some ("HIT" :: Headers c !!! "X-Cache") /\
  clientHeader (serve originURL env r w).1 !! "Connection" = None /\
  clientHeader (serve originURL env r w).1 !! "Transfer-Encoding" = None /\
  (forall k, k <> "Connection" -> k <> "Transfer-Encoding" ->
             k <> "Content-Length" -> k <> "X-Cache" ->
             clientHeader (serve originURL env r w).1 !!! k = Headers c !!! k).
Proof.
  intros Hm Hk Hc. rewrite (serve_hit _ _ _ _ c Hm Hk). cbn [fst snd].
  split; [done|]. split; [done|]. split; [apply hit_marker|].
  split; [apply hit_status|]. split; [apply hit_body|].
  rewrite !hit_header_lookup by done.
  repeat (split; [reflexivity|]).
  intros k. by apply hit_header_other.
Qed.

Lemma hit_is_served_from_store_witness :
  clientBody
    (serve originExample (answering (inl "connection refused") 9)
       (request "GET" "/users/1" [])
       (stored initial "GET:/users/1"
          (recordOf 3 200 jsonHeader (list_byte_of_string "user one")))).1
  = list_byte_of_string "user one".
Proof.
  refine (proj1 (proj2 (proj2 (proj2 (proj2
    (hit_is_served_from_store originExample
       (answering (inl "connection refused") 9)
       (request "GET" "/users/1" [])
       (stored initial "GET:/users/1"
          (recordOf 3 200 jsonHeader (list_byte_of_string "user one")))
       (recordOf 3 200 jsonHeader (list_byte_of_string "user one"))
       _ _ _)))))); reflexivity.
Defined.

(** C7: a GET whose key is not in the store and whose origin answer is a
    2xx response that can be read is a [MISS] that relays the answer and
    stores it; the same GET issued next is a [HIT] that sends no request
    to the origin and carries the status code and the bytes of that
    answer, and its headers, name by name, apart from [Connection] and
    [Transfer-Encoding] (dropped), the marker (put in front of the values
    of [X-Cache]) and [Content-Length] (the length of the body). *)
Theorem miss_then_hit (originURL : url.URL) env1 env2 r w code hdr body :
  http.Method r = http.MethodGet ->
  cache w !! generateCacheKey r = None ->
  origin env1 (Director originURL r) = inr (code, hdr, body) ->
  http.failure body = None ->
  200 <= code < 300 ->
  canonicalKeys hdr = true ->
  marker (serve originURL env1 r w).1 = "MISS" /\
  clientStatus (serve originURL env1 r w).1 = Some code /\
  clientBody (serve originURL env1 r w).1 = http.data body /\
  cache (serve originURL env1 r w).2 !! generateCacheKey r =
    Some (recordOf (clock env1) code hdr (http.data body)) /\
  marker (serve originURL env2 r (serve originURL env1 r w).2).1 = "HIT" /\
  clientStatus (serve originURL env2 r (serve originURL env1 r w).2).1 = Some code /\
  clientBody (serve originURL env2 r (serve originURL env1 r w).2).1 = http.data body /\
  upstream (serve originURL env2 r (serve originURL env1 r w).2).2 =
    upstream (serve originURL env1 r w).2 /\
  clientHeader (serve originURL env2 r (serve originURL env1 r w).2).1 !! "Connection" = None /\
  clientHeader (serve originURL env2 r (serve originURL env1 r w).2).1
    !! "Transfer-Encoding" = None /\
  clientHeader (serve originURL env2 r (serve originURL env1 r w).2).1 !! "X-Cache" =
    Some ("HIT" :: hdr !!! "X-Cache") /\
  clientHeader (serve originURL env2 r (serve originURL env1 r w).2).1
    !! "Content-Length" = Some [Sprintf_d (length (http.data body))] /\
  (forall k, k <> "Connection" -> k <> "Transfer-Encoding" ->
             k <> "Content-Length" -> k <> "X-Cache" ->
             clientHeader (serve originURL env2 r (serve originURL env1 r w).2).1 !!! k =
               hdr !!! k).
Proof.
  intros Hm Hk Ho Hb Hc Hcan.
  rewrite (serve_miss _ _ _ _ Hm Hk), (forward_stored _ _ _ _ _ _ _ _ Ho Hb Hc).
  cbn [fst snd]. set (c := recordOf (clock env1) code hdr (http.data body)).
  split; [apply relay_marker|]. split; [apply relay_status|].
  split; [apply relay_body|]. split; [apply lookup_insert_eq|].
  set (w1 := stored _ _ _).
  assert (cache w1 !! generateCacheKey r = Some c) as Hk1 by apply lookup_insert_eq.
  rewrite (serve_hit _ _ _ _ c Hm Hk1). cbn [fst snd].
  split; [apply hit_marker|]. split; [apply hit_status|].
  split; [apply hit_body|]. split; [done|].
  rewrite !hit_header_lookup by done.
  repeat (split; [reflexivity|]).
  intros k. by apply hit_header_other.
Qed.

Lemma miss_then_hit_witness :
  marker (serve originExample (answering (inr (200, jsonHeader, stream "user one")) 3)
            (request "GET" "/users/1" []) initial).1 = "MISS" /\
  clientBody
    (serve originExample (answering (inl "connection refused") 9)
       (request "GET" "/users/1" [])
       (serve originExample (answering (inr (200, jsonHeader, stream "user one")) 3)
          (request "GET" "/users/1" []) initial).2).1
  = list_byte_of_string "user one".
Proof.
  destruct (miss_then_hit originExample
              (answering (inr (200, jsonHeader, stream "user one")) 3)
              (answering (inl "connection refused") 9)
              (request "GET" "/users/1" []) initial
              200 jsonHeader (stream "user one"))
    as (Hmiss & _ & _ & _ & _ & _ & Hbody & _);
    [reflexivity | reflexivity | reflexivity | reflexivity | lia | reflexivity |].
  split; assumption.
Defined.

(** C8: when reading the body of the origin's response fails, the
    response hook returns an error and leaves the state as it was; the
    exchange as a whole leaves the store as it was; a request that was
    forwarded is answered with 502 and an empty body; and every later
    exchange gets the response it would have got had the failed exchange
    not taken place. *)
Theorem body_read_failure (originURL : url.URL) env r w code hdr body e :
  origin env (Director originURL r) = inr (code, hdr, body) ->
  http.failure body = Some e ->
  (forall resp, http.Body resp = body ->
     ModifyResponse resp env w =
       (inl ("failed to read response body for caching: " +:+ e), w)) /\
  cache (serve originURL env r w).2 = cache w /\
  (http.Method r <> http.MethodGet \/ cache w !! generateCacheKey r = None ->
   clientStatus (serve originURL env r w).1 = Some http.StatusBadGateway /\
   clientBody (serve originURL env r w).1 = []) /\
  (forall env' r',
     (serve originURL env' r' (serve originURL env r w).2).1 =
     (serve originURL env' r' w).1).
Proof.
  intros Ho Hb.
  assert (cache (serve originURL env r w).2 = cache w) as Hcache.
  { destruct (serve_cache originURL env r w)
      as [?|(code' & hdr' & body' & Ho' & Hb' & _)]; [done|].
    rewrite Ho in Ho'. injection Ho' as <- <- <-. congruence. }
  split; [|split; [done|split]].
  - intros resp <-. by apply ModifyResponse_body_error.
  - intros Hfwd.
    assert (serve originURL env r w =
            httputil.ServeHTTP (proxy originURL)
              (marked (if decide (http.Method r = http.MethodGet)
                       then "MISS" else "BYPASS")) r env w) as ->.
    { destruct Hfwd as [Hm|Hk].
      - rewrite decide_False by done. by apply serve_bypass.
      - destruct (decide (http.Method r = http.MethodGet)) as [Hm|Hm];
          [by apply serve_miss | by apply serve_bypass]. }
    by rewrite (forward_body_error _ _ _ _ _ _ _ _ e Ho Hb).
  - intros env' r'. apply serve_response_lookup. intros _. by rewrite Hcache.
Qed.

Lemma body_read_failure_witness :
  cache (serve originExample
           (answering (inr (200, jsonHeader, brokenStream "par" "unexpected EOF")) 4)
           (request "GET" "/users/1" []) initial).2 = cache initial.
Proof.
  exact (proj1 (proj2
    (body_read_failure originExample
       (answering (inr (200, jsonHeader, brokenStream "par" "unexpected EOF")) 4)
       (request "GET" "/users/1" []) initial
       200 jsonHeader (brokenStream "par" "unexpected EOF") "unexpected EOF"
       eq_refl eq_refl))).
Defined.

(** C9: the record of a forwarded response is put under the key of the
    request as the client sent it.  The response hook computes the key
    from the request the response answers, which is the director's
    rewrite of the client's request; the rewrite changes neither method
    nor path nor query, so the two keys are the same, and the same GET
    issued next finds the record. *)
Theorem stored_under_client_key (originURL : url.URL) env r w code hdr body :
  origin env (Director originURL r) = inr (code, hdr, body) ->
  http.failure body = None ->
  200 <= code < 300 ->
  http.Method r <> http.MethodGet \/ cache w !! generateCacheKey r = None ->
  generateCacheKey (Director originURL r) = generateCacheKey r /\
  (ModifyResponse
     {| http.StatusCode := code; http.RespHeader := hdr; http.Body := body;
        http.Request_ := Director originURL r |} env w).2 =
    stored w (generateCacheKey r) (recordOf (clock env) code hdr (http.data body)) /\
  cache (serve originURL env r w).2 =
    <[generateCacheKey r := recordOf (clock env) code hdr (http.data body)]> (cache w) /\
  (forall env', http.Method r = http.MethodGet ->
     marker (serve originURL env' r (serve originURL env r w).2).1 = "HIT").
Proof.
  intros Ho Hb Hc Hfwd.
  assert (serve originURL env r w =
          httputil.ServeHTTP (proxy originURL)
            (marked (if decide (http.Method r = http.MethodGet)
                     then "MISS" else "BYPASS")) r env w) as Hserve.
  { destruct Hfwd as [Hm|Hk].
    - rewrite decide_False by done. by apply serve_bypass.
    - destruct (decide (http.Method r = http.MethodGet)) as [Hm|Hm];
        [by apply serve_miss | by apply serve_bypass]. }
  rewrite (forward_stored _ _ _ _ _ _ _ _ Ho Hb Hc) in Hserve.
  split; [apply generateCacheKey_Director|]. split; [|split].
  - by rewrite ModifyResponse_stored.
  - by rewrite Hserve.
  - intros env' Hm. rewrite Hserve. cbn [snd].
    rewrite (serve_hit _ _ _ _ (recordOf (clock env) code hdr (http.data body)));
      [apply hit_marker | done | apply lookup_insert_eq].
Qed.

Lemma stored_under_client_key_witness :
  cache (serve originExample (answering (inr (200, jsonHeader, stream "[]")) 2)
           (request "GET" "/items" [("b", "2"); ("a", "1")]) initial).2 =
  <["GET:/items?a=1&b=2" := recordOf 2 200 jsonHeader (list_byte_of_string "[]")]> ∅.
Proof.
  destruct (stored_under_client_key originExample
              (answering (inr (200, jsonHeader, stream "[]")) 2)
              (request "GET" "/items" [("b", "2"); ("a", "1")]) initial
              200 jsonHeader (stream "[]"))
    as (_ & _ & Hcache & _);
    [reflexivity | reflexivity | lia | right; reflexivity |].
  exact Hcache.
Defined.

(** C10: every key starts with the method and a colon; the key of a
    request whose method is not GET (and, as every method the server
    admits, holds no colon) is the key of no GET request; a record put
    under such a key changes the response to no request; and the response
    to a request whose method is not GET does not depend on the store at
    all. *)
Theorem non_get_entries_are_never_served (originURL : url.URL) :
  (forall r, exists rest, generateCacheKey r = http.Method r +:+ ":" +:+ rest) /\
  (forall r r',
      http.Method r <> http.MethodGet -> occurs ":" (http.Method r) = false ->
      http.Method r' = http.MethodGet ->
      generateCacheKey r <> generateCacheKey r') /\
  (forall env r r' w c,
      http.Method r <> http.MethodGet -> occurs ":" (http.Method r) = false ->
      (serve originURL env r' (stored w (generateCacheKey r) c)).1 =
      (serve originURL env r' w).1) /\
  (forall env r w1 w2,
      http.Method r <> http.MethodGet ->
      (serve originURL env r w1).1 = (serve originURL env r w2).1).
Proof.
  split; [|split; [|split]].
  - intros r. eexists. apply generateCacheKey_shape.
  - apply generateCacheKey_method_apart.
  - intros env r r' w c Hm Hcolon. apply serve_response_lookup. intros Hm'.
    simpl. apply lookup_insert_ne. by apply generateCacheKey_method_apart.
  - intros env r w1 w2 Hm. apply serve_response_lookup. intros Hm'. done.
Qed.

Lemma non_get_entries_are_never_served_witness :
  (serve originExample (answering (inr (200, jsonHeader, stream "list")) 8)
     (request "GET" "/orders" [])
     (stored initial (generateCacheKey (request "POST" "/orders" []))
        (recordOf 5 201 jsonHeader (list_byte_of_string "created")))).1 =
  (serve originExample (answering (inr (200, jsonHeader, stream "list")) 8)
     (request "GET" "/orders" []) initial).1.
Proof.
  apply (proj1 (proj2 (proj2 (non_get_entries_are_never_served originExample)))).
  - discriminate.
  - reflexivity.
Defined.

(** * Further properties of the handler *)

Section outbound.

Variable originURL : url.URL.

Implicit Types (r : http.Request) (w : World) (env : Env).

Lemma serve_not_hit env r w :
  ~ isHit r w ->
  exists m, (m = "BYPASS" \/ m = "MISS") /\
    serve originURL env r w =
      httputil.ServeHTTP (proxy originURL) (marked m) r env w.
Proof.
  intros Hn.
  destruct (serve_outcome originURL env r w) as [(c & Hm & Hc & _)|(m & Hcase & ->)].
  - destruct Hn. split; [done | by exists c].
  - exists m. split; [|done]. destruct Hcase as [[-> _]|[-> _]]; auto.
Qed.

Lemma serve_upstream env r w :
  upstream (serve originURL env r w).2 =
    if decide (isHit r w) then upstream w
    else upstream w ++ [Director originURL r].
Proof.
  destruct (decide (isHit r w)) as [[Hm [c Hc]]|Hn].
  - by rewrite (serve_hit _ _ _ _ c Hm Hc).
  - destruct (serve_not_hit env r w Hn) as (m & _ & ->). apply forward_upstream.
Qed.


Lemma serveAll_upstream xs w :
  exists sent,
    upstream (serveAll originURL xs w).2 = upstream w ++ sent /\
    (length sent <= length xs)%nat /\
    Forall (fun req => exists x, x ∈ xs /\ req = Director originURL x.2) sent.
Proof.
  revert w. induction xs as [|[env r] xs IH]; intros w.
  - exists []. simpl. rewrite app_nil_r. by repeat split.
  - rewrite serveAll_cons. cbn [fst snd].
    destruct (IH (serve originURL env r w).2) as (sent & -> & Hlen & Hall).
    assert (Forall (fun req => exists x, x ∈ (env, r) :: xs /\
                       req = Director originURL x.2) sent) as Hall'.
    { eapply Forall_impl; [exact Hall|]. intros req (x & Hx & ->).
      exists x. split; [by right | done]. }
    rewrite serve_upstream. destruct (decide (isHit r w)).
    + exists sent. simpl. repeat split; [lia | done].
    + exists (Director originURL r :: sent). rewrite <- app_assoc. simpl.
      repeat split; [lia|]. constructor; [|done].
      exists (env, r). split; [by left | done].
Qed.


(** X2: an exchange sends one request to the origin, the director's
    rewrite of the client's, unless it is a GET whose key is in the store,
    which sends none; a run never sends more requests than it has
    exchanges. *)
Theorem one_request_unless_hit :
  (forall env r w,
     upstream (serve originURL env r w).2 =
       if decide (isHit r w) then upstream w
       else upstream w ++ [Director originURL r]) /\
  (forall xs w,
     (length (upstream (serveAll originURL xs w).2) <=
        length (upstream w) + length xs)%nat).
Proof.
  split; [apply serve_upstream|]. intros xs w.
  destruct (serveAll_upstream xs w) as (sent & -> & Hlen & _).
  rewrite length_app. lia.
Qed.

(** X3: the marker tells the three branches apart, whatever the origin
    does: [BYPASS] when the method is not GET, [HIT] when it is GET and
    the key is in the store, [MISS] when it is GET and the key is not. *)
Theorem marker_classifies env r w :
  marker (serve originURL env r w).1 =
    if decide (http.Method r = http.MethodGet) then
      if decide (is_Some (cache w !! generateCacheKey r)) then "HIT" else "MISS"
    else "BYPASS".
Proof.
  destruct (decide (http.Method r = http.MethodGet)) as [Hm|Hm].
  - destruct (cache w !! generateCacheKey r) as [c|] eqn:Hk.
    + rewrite decide_True by eauto.
      rewrite (serve_hit _ _ _ _ c Hm Hk). apply hit_marker.
    + rewrite decide_False by (intros [? [=]]).
      rewrite serve_miss by done. apply forward_marker.
  - rewrite serve_bypass by done. apply forward_marker.
Qed.


End outbound.

Section forwarding.

Implicit Types (originURL : url.URL) (r : http.Request) (w : World) (env : Env)
  (code : Z) (hdr : http.Header) (body : http.ReadCloser).

Lemma error_header m :
  clientHeader (httputil.defaultErrorHandler (marked m)) = {["X-Cache" := [m]]}.
Proof. reflexivity. Qed.

(** X5: when the origin cannot be reached, a request that is not
    answered from the store gets status 502, an empty body and no header
    but the marker; the store is left as it was. *)
Theorem transport_error_is_bad_gateway originURL env r w e :
  origin env (Director originURL r) = inl e ->
  ~ isHit r w ->
  clientStatus (serve originURL env r w).1 = Some http.StatusBadGateway /\
  clientBody (serve originURL env r w).1 = [] /\
  clientHeader (serve originURL env r w).1 =
    {["X-Cache" := [marker (serve originURL env r w).1]]} /\
  cache (serve originURL env r w).2 = cache w.
Proof.
  intros Ho Hn. destruct (serve_not_hit originURL env r w Hn) as (m & _ & ->).
  rewrite (forward_transport_error _ _ _ _ _ e Ho). cbn [fst snd].
  by rewrite error_marker, error_header.
Qed.

Lemma transport_error_is_bad_gateway_witness :
  clientStatus
    (serve originExample (answering (inl "connection refused") 1)
       (request "GET" "/users/1" []) initial).1 = Some 502.
Proof.
  refine (proj1 (transport_error_is_bad_gateway originExample
                   (answering (inl "connection refused") 1)
                   (request "GET" "/users/1" []) initial "connection refused"
                   eq_refl _)).
  intros [_ [c Hc]]. discriminate Hc.
Defined.



End forwarding.

(** * Further properties of the store *)

Section store.

Implicit Types (originURL : url.URL) (r : http.Request) (w : World) (env : Env)
  (c : CachedResponse).

(** An exchange writes to the store only when it is not answered from
    it. *)
Lemma serve_cache_forwarded originURL env r w :
  cache (serve originURL env r w).2 = cache w \/
  (~ isHit r w /\
   exists code hdr body,
     origin env (Director originURL r) = inr (code, hdr, body) /\
     http.failure body = None /\ 200 <= code < 300 /\
     cache (serve originURL env r w).2 =
       <[generateCacheKey r := recordOf (clock env) code hdr (http.data body)]>
         (cache w)).
Proof.
  destruct (decide (isHit r w)) as [[Hm [c Hc]]|Hn].
  - left. by rewrite (serve_hit _ _ _ _ c Hm Hc).
  - destruct (serve_cache originURL env r w) as [?|?]; [by left | by right].
Qed.

Lemma serve_keeps_get_entry originURL env r r0 w c :
  http.Method r0 = http.MethodGet ->
  cache w !! generateCacheKey r0 = Some c ->
  occurs ":" (http.Method r) = false ->
  cache (serve originURL env r w).2 !! generateCacheKey r0 = Some c.
Proof.
  intros Hm0 Hc Hcolon.
  destruct (serve_cache_forwarded originURL env r w)
    as [->|(Hn & code & hdr & body & _ & _ & _ & ->)]; [done|].
  rewrite lookup_insert_ne; [done|]. intros Heq.
  destruct (decide (http.Method r = http.MethodGet)) as [Hm|Hm].
  - apply Hn. split; [done|]. rewrite Heq. eauto.
  - by apply (generateCacheKey_method_apart r r0).
Qed.

(** X7: a record stored under the key of a GET request stays as it is:
    no later exchange replaces or removes it (methods being tokens, that
    is, free of colons), and the GET is answered from it after any run as
    it was before. *)
Theorem get_entries_are_permanent originURL r0 w c xs :
  http.Method r0 = http.MethodGet ->
  cache w !! generateCacheKey r0 = Some c ->
  Forall (fun x => occurs ":" (http.Method x.2) = false) xs ->
  cache (serveAll originURL xs w).2 !! generateCacheKey r0 = Some c /\
  (forall env env',
     (serve originURL env r0 (serveAll originURL xs w).2).1 =
     (serve originURL env' r0 w).1).
Proof.
  intros Hm0 Hc Hxs.
  assert (cache (serveAll originURL xs w).2 !! generateCacheKey r0 = Some c) as Hend.
  { revert w Hc. induction Hxs as [|[env r] xs Hx Hxs IH]; intros w Hc; [done|].
    rewrite serveAll_cons. cbn [fst snd]. apply IH.
    by apply serve_keeps_get_entry. }
  split; [done|]. intros env env'.
  by rewrite (serve_hit _ _ _ _ c Hm0 Hend), (serve_hit _ _ _ _ c Hm0 Hc).
Qed.

Lemma get_entries_are_permanent_witness :
  cache
    (serveAll originExample
       [(answering (inr (201, jsonHeader, stream "created")) 6,
         request "POST" "/users/1" []);
        (answering (inr (200, jsonHeader, stream "user two")) 7,
         request "GET" "/users/2" [])]
       (stored initial "GET:/users/1"
          (recordOf 3 200 jsonHeader (list_byte_of_string "user one")))).2
    !! "GET:/users/1"
  = Some (recordOf 3 200 jsonHeader (list_byte_of_string "user one")).
Proof.
  apply (get_entries_are_permanent originExample (request "GET" "/users/1" []));
    [reflexivity | reflexivity | repeat constructor].
Defined.

Lemma serve_grows originURL env r w :
  (forall k, is_Some (cache w !! k) ->
             is_Some (cache (serve originURL env r w).2 !! k)) /\
  (size (cache (serve originURL env r w).2) + length (upstream w) <=
     size (cache w) + length (upstream (serve originURL env r w).2))%nat.
Proof.
  rewrite serve_upstream.
  destruct (serve_cache_forwarded originURL env r w)
    as [->|(Hn & code & hdr & body & _ & _ & _ & ->)].
  - split; [done|]. destruct (decide (isHit r w)); [lia|].
    rewrite length_app. lia.
  - split.
    + intros k Hk. rewrite lookup_insert_is_Some.
      destruct (decide (generateCacheKey r = k)); auto.
    + rewrite decide_False by done. rewrite length_app, map_size_insert.
      cbn [length]. destruct (cache w !! generateCacheKey r); unfold id; lia.
Qed.

(** X8: serving never removes a key from the store, and the store gains
    at most one key for every request sent to the origin (none on a
    hit). *)
Theorem store_only_grows originURL xs w :
  (forall k, is_Some (cache w !! k) ->
             is_Some (cache (serveAll originURL xs w).2 !! k)) /\
  (size (cache (serveAll originURL xs w).2) + length (upstream w) <=
     size (cache w) + length (upstream (serveAll originURL xs w).2))%nat.
Proof.
  revert w. induction xs as [|[env r] xs IH]; intros w.
  - simpl. split; [done | lia].
  - rewrite serveAll_cons. cbn [fst snd].
    destruct (serve_grows originURL env r w) as [Hkeep Hsize].
    destruct (IH (serve originURL env r w).2) as [Hkeep' Hsize'].
    split; [auto | lia].
Qed.

Lemma store_only_grows_witness :
  is_Some
    (cache
       (serveAll originExample
          [(answering (inr (200, jsonHeader, stream "user two")) 7,
            request "GET" "/users/2" [])]
          (stored initial "GET:/users/1"
             (recordOf 3 200 jsonHeader (list_byte_of_string "user one")))).2
     !! "GET:/users/1").
Proof.
  apply (proj1 (store_only_grows originExample _ _)).
  eexists. reflexivity.
Defined.

(** X9: the store keeps the last record put under a key: when the
    response hook stores two responses of requests with the same key, one
    after the other, the store is as if only the second had been
    stored. *)
Theorem last_writer_wins (resp1 resp2 : http.Response) env1 env2 w :
  generateCacheKey (http.Request_ resp1) = generateCacheKey (http.Request_ resp2) ->
  http.failure (http.Body resp1) = None -> 200 <= http.StatusCode resp1 < 300 ->
  http.failure (http.Body resp2) = None -> 200 <= http.StatusCode resp2 < 300 ->
  cache (ModifyResponse resp2 env2 (ModifyResponse resp1 env1 w).2).2 =
    cache (ModifyResponse resp2 env2 w).2 /\
  cache (ModifyResponse resp2 env2 (ModifyResponse resp1 env1 w).2).2
    !! generateCacheKey (http.Request_ resp1) =
    Some (recordOf (clock env2) (http.StatusCode resp2) (http.RespHeader resp2)
            (http.data (http.Body resp2))).
Proof.
  intros Hkey Hb1 Hc1 Hb2 Hc2.
  rewrite (ModifyResponse_stored resp1), !(ModifyResponse_stored resp2) by done.
  simpl. rewrite Hkey, insert_insert_eq.
  split; [done | apply lookup_insert_eq].
Qed.

Lemma last_writer_wins_witness :
  cache (ModifyResponse (responseTo (request "GET" "/users/1" []) 200 "new")
           (answering (inl "unused") 9)
           (ModifyResponse (responseTo otherClient 200 "old")
              (answering (inl "unused") 8) initial).2).2
    !! generateCacheKey otherClient
  = Some (recordOf 9 200 jsonHeader (list_byte_of_string "new")).
Proof.
  apply (last_writer_wins (responseTo otherClient 200 "old")
           (responseTo (request "GET" "/users/1" []) 200 "new"));
    [reflexivity | reflexivity | simpl; lia | reflexivity | simpl; lia].
Defined.

(** A GET whose key is in the store is answered from it however often
    it is repeated, and the state stays as it is. *)
Lemma repeated_hits originURL (envs : list Env) r w c :
  http.Method r = http.MethodGet ->
  cache w !! generateCacheKey r = Some c ->
  serveAll originURL ((fun env => (env, r)) <$> envs) w =
    (replicate (length envs) (hitResponse c), w).
Proof.
  intros Hm Hc. induction envs as [|env envs IH]; [done|].
  rewrite fmap_cons, serveAll_cons, (serve_hit _ _ _ _ c Hm Hc).
  cbn [fst snd]. by rewrite IH.
Qed.

(** X10: of a GET repeated any number of times against a key that is
    not in the store, only the first reaches the origin when that one is
    answered with a readable 2xx response; all the others are hits that
    carry its status code and its bytes, whatever the origin would answer
    by then. *)
Theorem origin_contacted_once originURL env1 (envs : list Env) r w code hdr body :
  http.Method r = http.MethodGet ->
  cache w !! generateCacheKey r = None ->
  origin env1 (Director originURL r) = inr (code, hdr, body) ->
  http.failure body = None ->
  200 <= code < 300 ->
  upstream (serveAll originURL ((env1, r) :: ((fun env => (env, r)) <$> envs)) w).2 =
    upstream w ++ [Director originURL r] /\
  Forall (fun rw => marker rw = "HIT" /\ clientStatus rw = Some code /\
                    clientBody rw = http.data body)
    (tail (serveAll originURL ((env1, r) :: ((fun env => (env, r)) <$> envs)) w).1).
Proof.
  intros Hm Hk Ho Hb Hc.
  rewrite serveAll_cons, (serve_miss _ _ _ _ Hm Hk),
    (forward_stored _ _ _ _ _ _ _ _ Ho Hb Hc).
  cbn [fst snd tail].
  rewrite (repeated_hits originURL envs r _
             (recordOf (clock env1) code hdr (http.data body)) Hm)
    by apply lookup_insert_eq.
  split; [done|]. cbn [fst]. apply Forall_replicate.
  by rewrite hit_marker, hit_status, hit_body.
Qed.

Lemma origin_contacted_once_witness :
  upstream
    (serveAll originExample
       ((answering (inr (200, jsonHeader, stream "user one")) 3,
         request "GET" "/users/1" []) ::
        ((fun env => (env, request "GET" "/users/1" [])) <$>
           [answering (inl "connection refused") 4;
            answering (inr (500, jsonHeader, stream "oops")) 5]))
       initial).2
  = [Director originExample (request "GET" "/users/1" [])].
Proof.
  apply (origin_contacted_once originExample
           (answering (inr (200, jsonHeader, stream "user one")) 3)
           [answering (inl "connection refused") 4;
            answering (inr (500, jsonHeader, stream "oops")) 5]
           (request "GET" "/users/1" []) initial 200 jsonHeader (stream "user one"));
    [reflexivity | reflexivity | reflexivity | reflexivity | lia].
Defined.

Lemma generateCacheKey_ext r1 r2 :
  http.Method r1 = http.Method r2 ->
  url.Path (http.URL r1) = url.Path (http.URL r2) ->
  (forall n, values_of n (url.RawQuery (http.URL r1)) =
             values_of n (url.RawQuery (http.URL r2))) ->
  generateCacheKey r1 = generateCacheKey r2.
Proof.
  intros Hm Hp Hq. unfold generateCacheKey, url.Query.
  by rewrite Hm, Hp, (ParseQuery_ext _ _ Hq).
Qed.

(** X11: a hit takes nothing from the request but its key: two GETs
    with the same path and the same values for every parameter get the
    same response from the store, whatever their [Host], their headers
    (credentials included), the order of their parameters, the clock and
    the state of the origin. *)
Theorem hit_ignores_request_details originURL env1 env2 r1 r2 w :
  http.Method r1 = http.MethodGet ->
  http.Method r2 = http.MethodGet ->
  url.Path (http.URL r1) = url.Path (http.URL r2) ->
  (forall n, values_of n (url.RawQuery (http.URL r1)) =
             values_of n (url.RawQuery (http.URL r2))) ->
  is_Some (cache w !! generateCacheKey r1) ->
  (serve originURL env1 r1 w).1 = (serve originURL env2 r2 w).1.
Proof.
  intros Hm1 Hm2 Hp Hq [c Hc].
  assert (generateCacheKey r1 = generateCacheKey r2) as Hkey.
  { apply generateCacheKey_ext; [congruence | done..]. }
  rewrite (serve_hit _ _ _ _ c Hm1 Hc).
  rewrite Hkey in Hc. by rewrite (serve_hit _ _ _ _ c Hm2 Hc).
Qed.

Lemma hit_ignores_request_details_witness :
  (serve originExample (answering (inl "connection refused") 8)
     (request "GET" "/users/1" [])
     (stored initial "GET:/users/1"
        (recordOf 3 200 jsonHeader (list_byte_of_string "user one")))).1 =
  (serve originExample (answering (inr (200, jsonHeader, stream "user 1b")) 9)
     otherClient
     (stored initial "GET:/users/1"
        (recordOf 3 200 jsonHeader (list_byte_of_string "user one")))).1.
Proof.
  apply hit_ignores_request_details;
    [reflexivity | reflexivity | reflexivity | reflexivity |].
  eexists. reflexivity.
Defined.

End store.

(** * The header loop of the hit branch and [main] *)

Lemma hitLoop_addEntries (h : http.Header) l :
  hitLoop h l = addEntries hopByHop h l.
Proof.
  unfold hitLoop, addEntries. revert h.
  induction l as [|[k vv] l IH]; intros h; [done|].
  simpl. rewrite IH. f_equal. unfold hopByHop.
  case_bool_decide; case_decide; done || tauto.
Qed.

(** X12: the header loop of the hit branch gives the same header map in
    whatever order it visits the entries of the cached header map, the
    keys of that map being canonical. *)
Theorem hit_loop_order_irrelevant (h cached : http.Header) l :
  canonicalKeys cached = true ->
  l ≡ₚ map_to_list cached ->
  hitLoop h l = copyCached h cached.
Proof.
  intros Hc Hp. rewrite hitLoop_addEntries, copyCached_addEntries.
  by apply addEntries_order_irrelevant.
Qed.

Lemma hit_loop_order_irrelevant_witness :
  hitLoop {["X-Cache" := ["HIT"]]}
    [("Content-Type", ["application/json"]); ("Connection", ["keep-alive"])]
  = copyCached {["X-Cache" := ["HIT"]]} jsonHeader.
Proof.
  apply hit_loop_order_irrelevant; [reflexivity|].
  vm_compute. apply perm_swap.
Defined.

(** X13: [main] serves exactly when [--clear-cache] is off, [--origin]
    is given and parses, and then with the handler for the parsed URL on
    the port given and with the store untouched; with [--clear-cache] it
    returns with an empty store without looking at [--origin], which at
    process start leaves the state as it is. *)
Theorem main_outcomes (url_Parse : string -> string + url.URL) (flags : Flags)
    (w : World) :
  ((exists addr handler, (main url_Parse flags w).1 = ListenAndServe addr handler) <->
   clearCache flags = false /\ originStr flags <> EmptyString /\
   exists originURL, url_Parse (originStr flags) = inr originURL) /\
  (forall originURL,
     clearCache flags = false -> originStr flags <> EmptyString ->
     url_Parse (originStr flags) = inr originURL ->
     main url_Parse flags w =
       (ListenAndServe (listenAddr (port flags)) (createProxyHandler originURL), w)) /\
  (clearCache flags = true ->
     (main url_Parse flags w).1 = Returned /\
     cache (main url_Parse flags w).2 = ∅ /\
     main url_Parse flags initial = (Returned, initial)) /\
  (clearCache flags = false -> (main url_Parse flags w).2 = w).
Proof.
  unfold main. destruct (clearCache flags) eqn:Hclear.
  { split; [|by repeat split].
    split; [intros (? & ? & [=]) | intros [[=] _]]. }
  destruct (decide (originStr flags = EmptyString)) as [Hempty|Hgiven].
  { split; [|by repeat split].
    split; [intros (? & ? & [=]) | intros (_ & ? & _); done]. }
  destruct (url_Parse (originStr flags)) as [err|originURL] eqn:Hparse.
  { split; [|split; [intros ? _ _ [=] | by split]].
    split; [intros (? & ? & [=]) | intros (_ & _ & ? & [=])]. }
  split; [|split; [intros ? _ _ [= <-]; done | by split]].
  split; [eauto 6 | eauto].
Qed.

Lemma main_outcomes_witness :
  main (fun _ => inl "parse error")
    {| port := 8080; originStr := EmptyString; clearCache := true |} initial
  = (Returned, initial).
Proof.
  apply (proj1 (proj2 (proj2 (main_outcomes (fun _ => inl "parse error")
    {| port := 8080; originStr := EmptyString; clearCache := true |} initial)))).
  reflexivity.
Defined.

(** * The director and the age of records *)

(** X14: the director keeps the method, the path, the query and every
    header but the cache marker of the client's request; what the client
    put into the request's [Host], URL host, URL scheme or cache marker
    has no bearing on the request sent to the origin; and rewriting a
    rewritten request changes nothing. *)
Theorem Director_preserves (originURL : url.URL) :
  (forall r,
     http.Method (Director originURL r) = http.Method r /\
     url.Path (http.URL (Director originURL r)) = url.Path (http.URL r) /\
     url.RawQuery (http.URL (Director originURL r)) = url.RawQuery (http.URL r) /\
     (forall k, http.CanonicalHeaderKey k <> "X-Cache" ->
        http.Values (http.Header_ (Director originURL r)) k =
        http.Values (http.Header_ r) k)) /\
  (forall r1 r2,
     http.Method r1 = http.Method r2 ->
     url.Path (http.URL r1) = url.Path (http.URL r2) ->
     url.RawQuery (http.URL r1) = url.RawQuery (http.URL r2) ->
     (forall k, k <> "X-Cache" -> http.Header_ r1 !! k = http.Header_ r2 !! k) ->
     Director originURL r1 = Director originURL r2) /\
  (forall r, Director originURL (Director originURL r) = Director originURL r).
Proof.
  split; [|split].
  - intros r. repeat split. intros k Hk. unfold http.Values. simpl.
    unfold http.Del. rewrite canonical_X_Cache.
    by rewrite lookup_total_delete_ne.
  - intros r1 r2 Hm Hp Hq Hh. unfold Director. rewrite Hm, Hp, Hq.
    f_equal. unfold http.Del. rewrite canonical_X_Cache.
    apply map_eq. intros k. destruct (decide (k = "X-Cache")) as [->|Hk].
    + by rewrite !lookup_delete_eq.
    + rewrite !lookup_delete_ne by done. by apply Hh.
  - intros r. unfold Director. simpl. f_equal. unfold http.Del.
    rewrite canonical_X_Cache. apply map_eq. intros k.
    destruct (decide (k = "X-Cache")) as [->|Hk].
    + by rewrite !lookup_delete_eq.
    + by rewrite !lookup_delete_ne.
Qed.

Lemma Director_preserves_witness :
  http.Values (http.Header_ (Director originExample otherClient)) "authorization" =
  ["Bearer t0k3n"].
Proof.
  etransitivity;
    [apply (proj1 (Director_preserves originExample) otherClient) | reflexivity].
  discriminate.
Defined.

(** X15: a hit does not look at the time at which the record was
    stored: two stores that hold under the key of a GET records with the
    same status code, headers and body give the same response, however
    far apart the two records' timestamps are. *)
Theorem hit_ignores_record_age (originURL : url.URL) env r w1 w2 c1 c2 :
  http.Method r = http.MethodGet ->
  cache w1 !! generateCacheKey r = Some c1 ->
  cache w2 !! generateCacheKey r = Some c2 ->
  StatusCode c1 = StatusCode c2 ->
  Headers c1 = Headers c2 ->
  Response c1 = Response c2 ->
  (serve originURL env r w1).1 = (serve originURL env r w2).1.
Proof.
  intros Hm H1 H2 Hs Hh Hb.
  rewrite (serve_hit _ _ _ _ c1 Hm H1), (serve_hit _ _ _ _ c2 Hm H2).
  cbn [fst]. unfold hitResponse. by rewrite Hs, Hh, Hb.
Qed.

Lemma hit_ignores_record_age_witness :
  (serve originExample (answering (inl "connection refused") 100000)
     (request "GET" "/users/1" [])
     (stored initial "GET:/users/1"
        (recordOf 1 200 jsonHeader (list_byte_of_string "user one")))).1 =
  (serve originExample (answering (inl "connection refused") 100000)
     (request "GET" "/users/1" [])
     (stored initial "GET:/users/1"
        (recordOf 99999 200 jsonHeader (list_byte_of_string "user one")))).1.
Proof.
  apply (hit_ignores_record_age originExample _ _ _ _
           (recordOf 1 200 jsonHeader (list_byte_of_string "user one"))
           (recordOf 99999 200 jsonHeader (list_byte_of_string "user one")));
    reflexivity.
Defined.
